(** * cortex, pkg/configs/configs.go: rule configurations and their parsing

    A shallow embedding of [configs.go]: the rule format version and its
    JSON encoding, the tenant configuration and its compatibility wire
    shape, the projection of a view to its rules, the equality of rules
    configurations and the two parsers of rule files.

    Conventions of the embedding.
    - A Go [string] and a Go [[]byte] are Rocq strings (sequences of bytes).
    - A Go [int] is a [Z].
    - A Go [map[string]T] is an [option (gmap string T)]: [None] is the nil
      map, [Some m] an allocated map.  Reading a nil map behaves like
      reading an empty one ([entries]).
    - A Go function returning [(T, error)] returns a pair of options, so
      that a nil result and a nil error are both visible.
    - [for k, v := range m] visits the entries of [m] in an order the
      language leaves open: a loop over a map is a function of the list of
      entries in the order visited, and a statement about the loop
      quantifies over every order ([visits]).
    - The collaborators (encoding/json, fmt's quoting, the rulefmt, promql
      and legacy_promql parsers, the labels package) are the fields of a
      class, [Collaborators]. *)

From Stdlib Require Import ZArith Lia Ascii.
From stdpp Require Import base option list strings pretty gmap fin_maps.

Local Open Scope Z_scope.
Local Open Scope string_scope.
Local Open Scope list_scope.

(** ** Go values *)

(** [[]byte] *)
Definition bytes := string.

(** Reading a possibly nil map. *)
Definition entries {T} (m : option (gmap string T)) : gmap string T :=
  default ∅ m.

(** [len(m)] *)
Definition len {T} (m : option (gmap string T)) : nat :=
  size (entries m).

(** [v, ok := m[k]] *)
Definition index {T} (m : option (gmap string T)) (k : string) : option T :=
  entries m !! k.

(** The orders in which [range m] may visit the entries of [m]. *)
Definition visits {T} (m : option (gmap string T))
    (order : list (string * T)) : Prop :=
  order ≡ₚ map_to_list (entries m).

(** ** Identifiers and format versions *)

(** [type ID int] *)
Definition ID := Z.

(** [type RuleFormatVersion int] *)
Definition RuleFormatVersion := Z.

(** [RuleFormatV1 RuleFormatVersion = iota], first line of the block. *)
Definition RuleFormatV1 : RuleFormatVersion := 0.
(** [RuleFormatV2 RuleFormatVersion = iota], second line of the block. *)
Definition RuleFormatV2 : RuleFormatVersion := 1.

Definition IsValid (v : RuleFormatVersion) : bool :=
  if decide (v = RuleFormatV1) then true
  else if decide (v = RuleFormatV2) then true
  else false.

(** [time.Time], as an instant; the zero time is [0]. *)
Definition Time := Z.

(** ** Rules configurations, configurations and views *)

Record RulesConfig := mkRulesConfig {
  FormatVersion : RuleFormatVersion;
  Files : option (gmap string string)
}.

Record Config := mkConfig {
  Config_RulesConfig : RulesConfig;
  AlertmanagerConfig : string
}.

Record configCompat := mkConfigCompat {
  compat_RulesFiles : option (gmap string string);
  compat_RuleFormatVersion : RuleFormatVersion;
  compat_AlertmanagerConfig : string
}.

Record View := mkView {
  View_ID : ID;
  View_Config : Config;
  View_DeletedAt : Time
}.

Record VersionedRulesConfig := mkVersionedRulesConfig {
  VRC_ID : ID;
  VRC_Config : RulesConfig;
  VRC_DeletedAt : Time
}.

(** [func (v View) GetVersionedRulesConfig() *VersionedRulesConfig];
    [None] is the nil pointer. *)
Definition GetVersionedRulesConfig (v : View) : option VersionedRulesConfig :=
  match Files (Config_RulesConfig (View_Config v)) with
  | None => None
  | Some _ =>
      Some {| VRC_ID := View_ID v;
              VRC_Config := Config_RulesConfig (View_Config v);
              VRC_DeletedAt := View_DeletedAt v |}
  end.

(** [func (vr VersionedRulesConfig) IsDeleted() bool] *)
Definition IsDeleted (vr : VersionedRulesConfig) : bool :=
  negb (Z.eqb (VRC_DeletedAt vr) 0).

(** ** Equality of rules configurations *)

(** The loop of [Equal] over the entries of [c.Files], in the order
    visited: it returns [false] at the first entry that [o] lacks or
    holds with another content. *)
Fixpoint Equal_range (order : list (string * string))
    (o_Files : option (gmap string string)) : bool :=
  match order with
  | [] => true
  | (k, v1) :: rest =>
      match index o_Files k with
      | None => false
      | Some v2 =>
          if decide (v1 = v2) then Equal_range rest o_Files else false
      end
  end.

(** [func (c RulesConfig) Equal(o RulesConfig) bool], with the order in
    which the loop visits [c.Files]. *)
Definition Equal_visit (order : list (string * string))
    (c o : RulesConfig) : bool :=
  if decide (FormatVersion c ≠ FormatVersion o) then false
  else if decide (len (Files o) ≠ len (Files c)) then false
  else Equal_range order (Files o).

(** [Equal] with the entries visited in the order of [map_to_list]. *)
Definition Equal (c o : RulesConfig) : bool :=
  Equal_visit (map_to_list (entries (Files c))) c o.

(** ** Errors and results *)

(** A Go [error]: either an error value handed over by a collaborator,
    returned as it is, or the value built by [fmt.Errorf], which holds
    nothing but its message. *)
Inductive error (E : Type) : Type :=
  | Foreign (e : E)
  | Errorf (msg : string).
Arguments Foreign {E} e.
Arguments Errorf {E} msg.

(** The result of a collaborator that returns [(T, error)]. *)
Inductive res (E T : Type) : Type :=
  | Ok (t : T)
  | Fail (e : E).
Arguments Ok {E T} t.
Arguments Fail {E T} e.

(** A loop body that either goes on with a value or leaves the function
    with [return nil, err]. *)
Inductive outcome (E T : Type) : Type :=
  | Done (t : T)
  | Abort (err : error E).
Arguments Done {E T} t.
Arguments Abort {E T} err.

Definition bind {E A B} (x : outcome E A) (k : A → outcome E B)
    : outcome E B :=
  match x with
  | Done a => k a
  | Abort err => Abort err
  end.

Notation "'let*' x := y 'in' z" := (bind y (λ x, z))
  (at level 10, x name, y at level 100, z at level 200, only parsing).

(** The pair [(result, err)] a Go function returns: [return t, nil] or
    [return nil, err]. *)
Definition returns {E T} (x : outcome E T) : option T * option (error E) :=
  match x with
  | Done t => (Some t, None)
  | Abort err => (None, Some err)
  end.

(** ** Rule files and rules *)

(** [rulefmt.Rule], a rule of a 2.x rule file. *)
Record RuleNode := mkRuleNode {
  Record_ : string;
  Alert : string;
  Expr : string;
  For : Z;
  Labels : option (gmap string string);
  Annotations : option (gmap string string)
}.

(** [rulefmt.RuleGroup] *)
Record RuleGroup := mkRuleGroup {
  Name : string;
  Rules : list RuleNode
}.

(** [rulefmt.RuleGroups] *)
Record RuleGroups := mkRuleGroups {
  Groups : list RuleGroup
}.

(** Modelled from the spec: the statements of the legacy_promql package,
    whose declarations are not among the sources.  A legacy statement is
    an alert statement, a record statement, or of another kind, which the
    legacy grammar should never produce. *)
Inductive Statement (LExpr Lbls : Type) : Type :=
  | AlertStmt (name : string) (expr : LExpr) (duration : Z)
      (lbls annotations : Lbls)
  | RecordStmt (name : string) (expr : LExpr) (lbls : Lbls)
  | OtherStmt.
Arguments AlertStmt {LExpr Lbls}.
Arguments RecordStmt {LExpr Lbls}.
Arguments OtherStmt {LExpr Lbls}.

(** [rules.Rule]: what [rules.NewAlertingRule] and
    [rules.NewRecordingRule] are given (the logger apart). *)
Inductive Rule (PExpr Lbls : Type) : Type :=
  | AlertingRule (name : string) (vec : PExpr) (hold : Z)
      (lbls annotations : Lbls) (restored : bool)
  | RecordingRule (name : string) (vec : PExpr) (lbls : Lbls).
Arguments AlertingRule {PExpr Lbls}.
Arguments RecordingRule {PExpr Lbls}.

(** The key of a group in the result of the 2.x parser:
    [rg.Name+";"+fn]. *)
Definition group_key (name fn : string) : string :=
  name +:+ ";" +:+ fn.

(** Whether a string holds a semicolon. *)
Fixpoint has_semicolon (s : string) : bool :=
  match s with
  | EmptyString => false
  | String c rest =>
      if decide (c = Ascii.ascii_of_nat 59) then true else has_semicolon rest
  end.

(** The message of [fmt.Errorf("error parsing %s: %v", fn, err)]. *)
Definition error_parsing (fn cause : string) : string :=
  "error parsing " +:+ fn +:+ ": " +:+ cause.

(** The message of [fmt.Errorf("unknown rule format version %d", v)]. *)
Definition unknown_version (v : RuleFormatVersion) : string :=
  "unknown rule format version " +:+ pretty v.


(** ** Collaborators

    What the code takes from other packages. *)
Class Collaborators := {
  (** The error values of the collaborators and their [Error()] text. *)
  E : Type;
  Error : E → string;
  (** [strconv.Quote], the rendering of a string under [%q]. *)
  strconv_Quote : string → string;
  (** encoding/json.  [json_Marshal_string s] is [json.Marshal(s)] for a
      string, which never fails.  [json_Unmarshal_string data s] is
      [json.Unmarshal(data, &s)] for a string variable holding [s]: the
      new content of the variable, or the error.  [json_Unmarshal_map]
      is the same for a [map[string]string].  [json_object data] scans a
      JSON object into its members, key and raw value, in the order of
      the text; [json_key_matches tag key] tells whether a member's key
      selects the struct field tagged [tag]. *)
  json_Marshal_string : string → bytes;
  json_Unmarshal_string : bytes → string → res E string;
  json_Unmarshal_map :
    bytes → option (gmap string string) → res E (option (gmap string string));
  json_object : bytes → res E (list (string * bytes));
  json_key_matches : string → string → bool;
  (** The expressions of promql and [promql.ParseExpr]. *)
  PExpr : Type;
  promql_ParseExpr : string → res E PExpr;
  (** [labels.Labels] and [labels.FromMap]. *)
  Lbls : Type;
  labels_FromMap : option (gmap string string) → Lbls;
  (** [rulefmt.Parse]: the groups and the list of errors.  The groups are
      read only when the list of errors is empty. *)
  rulefmt_Parse : bytes → RuleGroups * list E;
  (** The expressions of legacy_promql, their [String()] and
      [legacy_promql.ParseStmts]. *)
  LExpr : Type;
  LExpr_String : LExpr → string;
  legacy_ParseStmts : string → res E (list (Statement LExpr Lbls))
}.

(** ** Sample collaborators

    Small stand-ins for the collaborators, on which the definitions can be
    run.  Errors are their messages.  The JSON layer knows quoted strings
    without escapes, [null], the empty object and the documents listed in
    [json_object]; a rule file is a line [group <name>] (one group holding
    the recording rule [r] over [up]), a line [badexpr <name>] (the same
    with an expression that does not parse, which the parser of rule
    files finds and reports among its errors) or anything else, which is
    a syntax error; a legacy file is likewise [alert <name>],
    [badexpr <name>] (an alert statement whose expression does not parse
    again), [other], or a syntax error. *)
Module Sample.

Definition E := string.
Definition Error (e : E) : string := e.

Definition dq : string := String (Ascii.ascii_of_nat 34) EmptyString.
Definition quoted (s : string) : string := dq +:+ s +:+ dq.

Fixpoint escape (s : string) : string :=
  match s with
  | EmptyString => EmptyString
  | String c rest =>
      if decide (c = Ascii.ascii_of_nat 34 ∨ c = Ascii.ascii_of_nat 92)
      then String (Ascii.ascii_of_nat 92) (String c (escape rest))
      else String c (escape rest)
  end.

Definition strconv_Quote (s : string) : string := quoted (escape s).

Definition json_Marshal_string (s : string) : bytes := quoted s.

(** [Some t] when [s] is [t] followed by a closing quote, [t] free of
    quotes and backslashes. *)
Fixpoint until_quote (s : string) : option string :=
  match s with
  | EmptyString => None
  | String c rest =>
      if decide (c = Ascii.ascii_of_nat 34) then
        match rest with EmptyString => Some EmptyString | _ => None end
      else if decide (c = Ascii.ascii_of_nat 92) then None
      else String c <$> until_quote rest
  end.

(** Whether a character starts a JSON number. *)
Definition is_digit (c : Ascii.ascii) : bool :=
  bool_decide (c = "-"%char) ||
  ((48 <=? Ascii.nat_of_ascii c)%nat && (Ascii.nat_of_ascii c <=? 57)%nat).

Definition json_Unmarshal_string (data : bytes) (s : string) : res E string :=
  if decide (data = "null") then Ok s
  else
    match data with
    | String c rest =>
        if decide (c = Ascii.ascii_of_nat 34) then
          match until_quote rest with
          | Some t => Ok t
          | None => Fail "invalid character in string literal"
          end
        else if decide (is_digit c = true) then
          Fail "json: cannot unmarshal number into Go value of type string"
        else Fail "json: cannot unmarshal into Go value of type string"
    | EmptyString => Fail "unexpected end of JSON input"
    end.

Definition json_Unmarshal_map (data : bytes) (m : option (gmap string string))
    : res E (option (gmap string string)) :=
  if decide (data = "null") then Ok None
  else if decide (data = "{}") then
    Ok (match m with Some _ => m | None => Some ∅ end)
  else Fail "json: cannot unmarshal into Go value of type map[string]string".

Definition legacy_blob : bytes :=
  "{" +:+ quoted "rules_files" +:+ ":{},"
      +:+ quoted "alertmanager_config" +:+ ":" +:+ quoted "route" +:+ "}".

Definition tagged_blob : bytes :=
  "{" +:+ quoted "rule_format_version" +:+ ":" +:+ quoted "2" +:+ "}".

Definition json_object (data : bytes) : res E (list (string * bytes)) :=
  if decide (data = legacy_blob) then
    Ok [("rules_files", "{}"); ("alertmanager_config", quoted "route")]
  else if decide (data = tagged_blob) then
    Ok [("rule_format_version", quoted "2")]
  else if decide (data = "{}") then Ok []
  else Fail "invalid character looking for beginning of value".

Definition json_key_matches (tag key : string) : bool :=
  bool_decide (tag = key).

Definition PExpr := string.
Definition promql_ParseExpr (s : string) : res E PExpr :=
  if decide (s = "up") then Ok s
  else Fail ("parse error at char 1: could not parse " +:+ s).

Definition Lbls := list (string * string).
Definition labels_FromMap (m : option (gmap string string)) : Lbls :=
  map_to_list (entries m).

(** [Some t] when [s] is [p] followed by [t]. *)
Fixpoint strip_prefix (p s : string) : option string :=
  match p, s with
  | EmptyString, _ => Some s
  | String a p', String b s' =>
      if decide (a = b) then strip_prefix p' s' else None
  | _, _ => None
  end.

Definition one_rule (expr : string) : RuleNode :=
  {| Record_ := "r"; Alert := EmptyString; Expr := expr; For := 0;
     Labels := None; Annotations := None |}.

(** The errors that the parser of rule files reports for a rule: it
    parses the expression of the rule as [promql.ParseExpr] does. *)
Definition rule_errors (group : string) (rl : RuleNode) : list E :=
  match promql_ParseExpr (Expr rl) with
  | Ok _ => []
  | Fail e =>
      ["group " +:+ group +:+ ", rule " +:+ Record_ rl
         +:+ ": could not parse expression: " +:+ e]
  end.

(** A group as the parser of rule files returns it: with its rules when
    none has an error, and with the errors of its rules otherwise. *)
Definition checked (rg : RuleGroup) : RuleGroups * list E :=
  match flat_map (rule_errors (Name rg)) (Rules rg) with
  | [] => ({| Groups := [rg] |}, [])
  | errs => ({| Groups := [] |}, errs)
  end.

Definition rulefmt_Parse (content : bytes) : RuleGroups * list E :=
  match strip_prefix "group " content with
  | Some name => checked {| Name := name; Rules := [one_rule "up"] |}
  | None =>
      match strip_prefix "badexpr " content with
      | Some name => checked {| Name := name; Rules := [one_rule "up +"] |}
      | None =>
          ({| Groups := [] |},
           ["yaml: line 3: unterminated rule block";
            "yaml: line 5: mapping values are not allowed here"])
      end
  end.

Definition LExpr := string.
Definition LExpr_String (e : LExpr) : string := e.

Definition legacy_ParseStmts (content : string)
    : res E (list (Statement LExpr Lbls)) :=
  match strip_prefix "alert " content with
  | Some name => Ok [AlertStmt name "up" 300 [] []]
  | None =>
      match strip_prefix "badexpr " content with
      | Some name => Ok [AlertStmt name "up +" 300 [] []]
      | None =>
          if decide (content = "other") then Ok [OtherStmt]
          else Fail "parse error at line 1, char 1: unexpected identifier"
      end
  end.

(** A configuration holding the listed files. *)
Definition config (v : RuleFormatVersion) (files : list (string * string))
    : RulesConfig :=
  {| FormatVersion := v; Files := Some (list_to_map files) |}.

(** One file whose group is malformed and one whose single rule has an
    expression that does not parse. *)
Definition broken_and_badexpr : RulesConfig :=
  config RuleFormatV2 [("a.yml", "broken"); ("b.yml", "badexpr g")].

(** One file whose group is malformed and one that parses. *)
Definition broken_and_good : RulesConfig :=
  config RuleFormatV2 [("a.yml", "broken"); ("b.yml", "group g")].

(** Two files, a group each: the group [x;a] of the file [b] and the
    group [x] of the file [a;b]. *)
Definition semicolons : RulesConfig :=
  config RuleFormatV2 [("b", "group x;a"); ("a;b", "group x")].

(** Two files holding a group of the same name. *)
Definition same_group_name : RulesConfig :=
  config RuleFormatV2 [("a.yml", "group g"); ("b.yml", "group g")].

(** A legacy file whose alert statement has an expression that does not
    parse again. *)
Definition legacy_badexpr : RulesConfig :=
  config RuleFormatV1 [("a.rules", "badexpr HighLoad")].

(** The files of [broken_and_badexpr], the file with the bad expression
    first. *)
Definition badexpr_first : list (string * string) :=
  [("b.yml", "badexpr g"); ("a.yml", "broken")].

(** The files of [broken_and_good], the file that parses first. *)
Definition good_first : list (string * string) :=
  [("b.yml", "group g"); ("a.yml", "broken")].

(** The files of [semicolons]. *)
Definition semicolons_files : list (string * string) :=
  [("b", "group x;a"); ("a;b", "group x")].

(** The files of [same_group_name], in two orders. *)
Definition same_group_name_files : list (string * string) :=
  [("a.yml", "group g"); ("b.yml", "group g")].
Definition same_group_name_swapped : list (string * string) :=
  [("b.yml", "group g"); ("a.yml", "group g")].

(** The files of [legacy_badexpr]. *)
Definition legacy_badexpr_files : list (string * string) :=
  [("a.rules", "badexpr HighLoad")].

(** A view whose file mapping is set and empty. *)
Definition empty_view : View :=
  mkView 3 (mkConfig (mkRulesConfig RuleFormatV1 (Some ∅)) "route") 0.

(** A configuration before decoding. *)
Definition old_config : Config :=
  mkConfig (mkRulesConfig RuleFormatV2 None) "old".

(** A rules configuration with an unknown format version. *)
Definition version_seven : RulesConfig :=
  config 7 [("a.yml", "group g")].

Definition K : Collaborators :=
  Build_Collaborators E Error strconv_Quote json_Marshal_string
    json_Unmarshal_string json_Unmarshal_map json_object json_key_matches
    PExpr promql_ParseExpr Lbls labels_FromMap rulefmt_Parse
    LExpr LExpr_String legacy_ParseStmts.

(** The sample encoder: maps and objects are written member by member,
    without escapes. *)
Fixpoint join_members (ms : list (string * bytes)) : bytes :=
  match ms with
  | [] => EmptyString
  | [(k, v)] => quoted k +:+ ":" +:+ v
  | (k, v) :: rest => quoted k +:+ ":" +:+ v +:+ "," +:+ join_members rest
  end.

Definition json_Marshal_object (ms : list (string * bytes)) : bytes :=
  "{" +:+ join_members ms +:+ "}".

Definition json_Marshal_map (m : option (gmap string string)) : bytes :=
  match m with
  | None => "null"
  | Some m => json_Marshal_object (prod_map id quoted <$> map_to_list m)
  end.

Definition json_MarshalerError (e : error E) : E :=
  "json: error calling MarshalJSON for type configs.RuleFormatVersion: "
  +:+ match e with Foreign e => e | Errorf msg => msg end.

(** A configuration to encode, and the sample collaborators with a JSON
    layer that also reads its encoding. *)
Definition wire_config : Config :=
  mkConfig (mkRulesConfig RuleFormatV2 (Some ∅)) "route".

Definition wire_members : list (string * bytes) :=
  [("rules_files", "{}"); ("rule_format_version", quoted "2");
   ("alertmanager_config", quoted "route")].

Definition json_object_wire (data : bytes) : res E (list (string * bytes)) :=
  if decide (data = json_Marshal_object wire_members) then Ok wire_members
  else json_object data.

Definition K_wire : Collaborators :=
  Build_Collaborators E Error strconv_Quote json_Marshal_string
    json_Unmarshal_string json_Unmarshal_map json_object_wire json_key_matches
    PExpr promql_ParseExpr Lbls labels_FromMap rulefmt_Parse
    LExpr LExpr_String legacy_ParseStmts.

(** A record whose version token is unknown. *)
Definition bad_version_members : list (string * bytes) :=
  [("alertmanager_config", quoted "route");
   ("rule_format_version", quoted "3")].

Definition json_object_bad (data : bytes) : res E (list (string * bytes)) :=
  if decide (data = json_Marshal_object bad_version_members)
  then Ok bad_version_members
  else json_object data.

Definition K_bad : Collaborators :=
  Build_Collaborators E Error strconv_Quote json_Marshal_string
    json_Unmarshal_string json_Unmarshal_map json_object_bad json_key_matches
    PExpr promql_ParseExpr Lbls labels_FromMap rulefmt_Parse
    LExpr LExpr_String legacy_ParseStmts.

(** Legacy files that parse, and one with a statement of another kind. *)
Definition legacy_good : RulesConfig :=
  config RuleFormatV1 [("a.rules", "alert HighLoad"); ("b.rules", "alert Down")].
Definition legacy_good_files : list (string * string) :=
  [("a.rules", "alert HighLoad"); ("b.rules", "alert Down")].
Definition legacy_good_swapped : list (string * string) :=
  [("b.rules", "alert Down"); ("a.rules", "alert HighLoad")].
Definition legacy_other_files : list (string * string) :=
  [("a.rules", "other")].

End Sample.

(** ** The code over its collaborators *)

Section Collaborators.

Context `{K : Collaborators}.

Abbreviation err := (error E).
Abbreviation rule := (Rule PExpr Lbls).
Abbreviation rulemap := (gmap string (list (Rule PExpr Lbls))).

(** *** The JSON encoding of a format version *)

(** [func (v RuleFormatVersion) MarshalJSON() ([]byte, error)] *)
Definition MarshalJSON (v : RuleFormatVersion) : option bytes * option err :=
  if decide (v = RuleFormatV1) then (Some (json_Marshal_string "1"), None)
  else if decide (v = RuleFormatV2) then (Some (json_Marshal_string "2"), None)
  else (None, Some (Errorf (unknown_version v))).

(** [func (v *RuleFormatVersion) UnmarshalJSON(data []byte) error]: the
    content of [*v] after the call, and the error. *)
Definition UnmarshalJSON (v : RuleFormatVersion) (data : bytes)
    : RuleFormatVersion * option err :=
  match json_Unmarshal_string data EmptyString with
  | Fail e => (v, Some (Foreign e))
  | Ok s =>
      if decide (s = "1") then (RuleFormatV1, None)
      else if decide (s = "2") then (RuleFormatV2, None)
      else (v, Some (Errorf ("unknown rule format version "
                               +:+ strconv_Quote data)))
  end.

(** *** The JSON decoding of a configuration *)

(** [json.Unmarshal(data, &compat)] on the members of the object, in
    their order.  A member selects the first field whose tag its key
    matches and is decoded into it; a member that selects no field is
    skipped.  An error of a field of a plain type is kept ([saved],
    the first one wins) and the decoding goes on; an error of
    [UnmarshalJSON] ends it at once. *)
Fixpoint decode_members (ms : list (string * bytes)) (compat : configCompat)
    (saved : option err) : configCompat * option err :=
  match ms with
  | [] => (compat, saved)
  | (key, raw) :: rest =>
      if json_key_matches "rules_files" key then
        match json_Unmarshal_map raw (compat_RulesFiles compat) with
        | Ok m =>
            decode_members rest
              {| compat_RulesFiles := m;
                 compat_RuleFormatVersion := compat_RuleFormatVersion compat;
                 compat_AlertmanagerConfig := compat_AlertmanagerConfig compat |}
              saved
        | Fail e =>
            decode_members rest compat
              (match saved with Some _ => saved | None => Some (Foreign e) end)
        end
      else if json_key_matches "rule_format_version" key then
        match UnmarshalJSON (compat_RuleFormatVersion compat) raw with
        | (v, None) =>
            decode_members rest
              {| compat_RulesFiles := compat_RulesFiles compat;
                 compat_RuleFormatVersion := v;
                 compat_AlertmanagerConfig := compat_AlertmanagerConfig compat |}
              saved
        | (_, Some e) => (compat, Some e)
        end
      else if json_key_matches "alertmanager_config" key then
        match json_Unmarshal_string raw (compat_AlertmanagerConfig compat) with
        | Ok s =>
            decode_members rest
              {| compat_RulesFiles := compat_RulesFiles compat;
                 compat_RuleFormatVersion := compat_RuleFormatVersion compat;
                 compat_AlertmanagerConfig := s |}
              saved
        | Fail e =>
            decode_members rest compat
              (match saved with Some _ => saved | None => Some (Foreign e) end)
        end
      else decode_members rest compat saved
  end.

(** [json.Unmarshal(data, &compat)]: the content of [compat] after the
    call, and the error. *)
Definition json_Unmarshal_configCompat (data : bytes) (compat : configCompat)
    : configCompat * option err :=
  match json_object data with
  | Fail e => (compat, Some (Foreign e))
  | Ok ms => decode_members ms compat None
  end.

(** [func (c *Config) UnmarshalJSON(data []byte) error]: the content of
    [*c] after the call, and the error.  [compat] starts as
    [configCompat{}], every field at its zero value. *)
Definition Config_UnmarshalJSON (c : Config) (data : bytes)
    : Config * option err :=
  let compat := {| compat_RulesFiles := None;
                   compat_RuleFormatVersion := 0;
                   compat_AlertmanagerConfig := EmptyString |} in
  match json_Unmarshal_configCompat data compat with
  | (_, Some e) => (c, Some e)
  | (compat, None) =>
      ({| Config_RulesConfig :=
            {| Files := compat_RulesFiles compat;
               FormatVersion := compat_RuleFormatVersion compat |};
          AlertmanagerConfig := compat_AlertmanagerConfig compat |}, None)
  end.

(** *** The 2.x parser *)

(** The loop of [parseV2] over the rules of a group; [rls] is the slice
    built so far. *)
Fixpoint parseV2_rules (rs : list RuleNode) (rls : list rule)
    : outcome E (list rule) :=
  match rs with
  | [] => Done rls
  | rl :: rest =>
      match promql_ParseExpr (Expr rl) with
      | Fail e => Abort (Foreign e)
      | Ok expr =>
          if decide (Alert rl ≠ EmptyString) then
            parseV2_rules rest
              (rls ++ [AlertingRule (Alert rl) expr (For rl)
                         (labels_FromMap (Labels rl))
                         (labels_FromMap (Annotations rl)) true])
          else
            parseV2_rules rest
              (rls ++ [RecordingRule (Record_ rl) expr
                         (labels_FromMap (Labels rl))])
      end
  end.

(** The loop of [parseV2] over the groups of the file [fn]. *)
Fixpoint parseV2_groups (fn : string) (rgs : list RuleGroup)
    (groups : rulemap) : outcome E rulemap :=
  match rgs with
  | [] => Done groups
  | rg :: rest =>
      let* rls := parseV2_rules (Rules rg) [] in
      parseV2_groups fn rest (<[group_key (Name rg) fn := rls]> groups)
  end.

(** The loop of [parseV2] over the files, in the order visited. *)
Fixpoint parseV2_files (order : list (string * string))
    (groups : rulemap) : outcome E rulemap :=
  match order with
  | [] => Done groups
  | (fn, content) :: rest =>
      match rulefmt_Parse content with
      | (_, e :: _) => Abort (Errorf (error_parsing fn (Error e)))
      | (rgs, []) =>
          let* groups' := parseV2_groups fn (Groups rgs) groups in
          parseV2_files rest groups'
      end
  end.

(** [func (c RulesConfig) parseV2() (map[string][]rules.Rule, error)],
    with the order in which the loop visits [c.Files]. *)
Definition parseV2 (order : list (string * string))
    : option rulemap * option err :=
  returns (parseV2_files order ∅).

(** *** The 1.x parser *)

(** The loop of [parseV1] over the statements of a file; [ra] is the
    slice built so far. *)
Fixpoint parseV1_stmts (stmts : list (Statement LExpr Lbls))
    (ra : list rule) : outcome E (list rule) :=
  match stmts with
  | [] => Done ra
  | AlertStmt name expr duration lbls annotations :: rest =>
      match promql_ParseExpr (LExpr_String expr) with
      | Fail e => Abort (Foreign e)
      | Ok expr' =>
          parseV1_stmts rest
            (ra ++ [AlertingRule name expr' duration lbls annotations true])
      end
  | RecordStmt name expr lbls :: rest =>
      match promql_ParseExpr (LExpr_String expr) with
      | Fail e => Abort (Foreign e)
      | Ok expr' =>
          parseV1_stmts rest (ra ++ [RecordingRule name expr' lbls])
      end
  | OtherStmt :: _ =>
      Abort (Errorf "ruler.GetRules: unknown statement type")
  end.

(** The loop of [parseV1] over the files, in the order visited. *)
Fixpoint parseV1_files (order : list (string * string))
    (result : rulemap) : outcome E rulemap :=
  match order with
  | [] => Done result
  | (fn, content) :: rest =>
      match legacy_ParseStmts content with
      | Fail e => Abort (Errorf (error_parsing fn (Error e)))
      | Ok stmts =>
          let* ra := parseV1_stmts stmts [] in
          parseV1_files rest (<[fn := ra]> result)
      end
  end.

(** [func (c RulesConfig) parseV1() (map[string][]rules.Rule, error)],
    with the order in which the loop visits [c.Files]. *)
Definition parseV1 (order : list (string * string))
    : option rulemap * option err :=
  returns (parseV1_files order ∅).

(** [func (c RulesConfig) Parse() (map[string][]rules.Rule, error)],
    with the order in which the adapter visits [c.Files]. *)
Definition Parse (order : list (string * string)) (c : RulesConfig)
    : option rulemap * option err :=
  if decide (FormatVersion c = RuleFormatV1) then parseV1 order
  else if decide (FormatVersion c = RuleFormatV2) then parseV2 order
  else (None, Some (Errorf (unknown_version (FormatVersion c)))).

(** What a call of [c.Parse()] may return: the result of [Parse] for
    one of the orders in which the files of [c] may be visited. *)
Definition Parse_returns (c : RulesConfig)
    (r : option rulemap * option err) : Prop :=
  ∃ order, visits (Files c) order ∧ Parse order c = r.

(** *** Files that parse *)

(** The groups that [rulefmt.Parse] reads in a file. *)
Definition groups_of (content : string) : list RuleGroup :=
  Groups (rulefmt_Parse content).1.

(** A 2.x file that parses: [rulefmt.Parse] reports no error and the
    expression of every rule of every group parses. *)
Definition file_parses_V2 (content : string) : Prop :=
  (rulefmt_Parse content).2 = [] ∧
  ∀ rg rl, rg ∈ groups_of content → rl ∈ Rules rg →
    ∃ expr, promql_ParseExpr (Expr rl) = Ok expr.

(** What [rulefmt.Parse] does with expressions: it parses the expression
    of every rule with [promql.ParseExpr] and reports a failure among
    its errors, so that a file for which it reports no error has no rule
    whose expression fails to parse. *)
Definition rulefmt_validates : Prop :=
  ∀ content, (rulefmt_Parse content).2 = [] →
    ∀ rg rl, rg ∈ groups_of content → rl ∈ Rules rg →
      ∃ expr, promql_ParseExpr (Expr rl) = Ok expr.

(** The expression of a legacy statement. *)
Definition stmt_expr (stmt : Statement LExpr Lbls) : option LExpr :=
  match stmt with
  | AlertStmt _ expr _ _ _ => Some expr
  | RecordStmt _ expr _ => Some expr
  | OtherStmt => None
  end.

(** A 1.x file that parses: [legacy_promql.ParseStmts] succeeds, every
    statement is an alert or a record statement, and the text of its
    expression parses again. *)
Definition file_parses_V1 (content : string) : Prop :=
  ∃ stmts, legacy_ParseStmts content = Ok stmts ∧
    ∀ stmt, stmt ∈ stmts →
      ∃ x expr, stmt_expr stmt = Some x ∧
                promql_ParseExpr (LExpr_String x) = Ok expr.

(** *** The JSON encoding of a configuration *)

(** The [compat] that [MarshalJSON] builds from a configuration. *)
Definition compat_of (c : Config) : configCompat :=
  {| compat_RulesFiles := Files (Config_RulesConfig c);
     compat_RuleFormatVersion := FormatVersion (Config_RulesConfig c);
     compat_AlertmanagerConfig := AlertmanagerConfig c |}.

Section Encoding.

(** More of encoding/json: [json.Marshal] of a [map[string]string], the
    writing of an object from its members, key and encoded value, and the
    error in which [json.Marshal] wraps the error of a [MarshalJSON]
    method. *)
Variable json_Marshal_map : option (gmap string string) → bytes.
Variable json_Marshal_object : list (string * bytes) → bytes.
Variable json_MarshalerError : err → E.

(** The members that [json.Marshal] writes for a [configCompat], in the
    order of its fields and under their tags; [version] is what
    [MarshalJSON] returned for the format version. *)
Definition compat_members (compat : configCompat) (version : bytes)
    : list (string * bytes) :=
  [("rules_files", json_Marshal_map (compat_RulesFiles compat));
   ("rule_format_version", version);
   ("alertmanager_config",
    json_Marshal_string (compat_AlertmanagerConfig compat))].

(** [json.Marshal(compat)]: the error of [MarshalJSON] on the format
    version ends the encoding.  ([MarshalJSON] returns bytes whenever it
    returns no error.) *)
Definition json_Marshal_configCompat (compat : configCompat)
    : option bytes * option err :=
  match MarshalJSON (compat_RuleFormatVersion compat) with
  | (version, None) =>
      (Some (json_Marshal_object
               (compat_members compat (default EmptyString version))), None)
  | (_, Some e) => (None, Some (Foreign (json_MarshalerError e)))
  end.

(** [func (c Config) MarshalJSON() ([]byte, error)] *)
Definition Config_MarshalJSON (c : Config) : option bytes * option err :=
  json_Marshal_configCompat (compat_of c).

End Encoding.

(** *** The rule made of a rule of a file *)

(** The rule that [parseV2] appends for the rule [rl] of a group, [expr]
    being its parsed expression. *)
Definition parseV2_rule (rl : RuleNode) (expr : PExpr) : rule :=
  if decide (Alert rl ≠ EmptyString) then
    AlertingRule (Alert rl) expr (For rl)
      (labels_FromMap (Labels rl)) (labels_FromMap (Annotations rl)) true
  else
    RecordingRule (Record_ rl) expr (labels_FromMap (Labels rl)).

(** The rule that [parseV1] appends for a statement, [expr] being its
    expression parsed again; none for a statement of another kind. *)
Definition parseV1_rule (stmt : Statement LExpr Lbls) (expr : PExpr)
    : option rule :=
  match stmt with
  | AlertStmt name _ duration lbls annotations =>
      Some (AlertingRule name expr duration lbls annotations true)
  | RecordStmt name _ lbls => Some (RecordingRule name expr lbls)
  | OtherStmt => None
  end.

(** ** Properties *)

(** *** Reading maps *)

Lemma visits_elem_of {T} (m : option (gmap string T)) order k v :
  visits m order → (k, v) ∈ order ↔ index m k = Some v.
Proof.
  unfold visits, index. intros Hp.
  rewrite Hp. apply elem_of_map_to_list.
Qed.

Lemma visits_canonical {T} (m : option (gmap string T)) :
  visits m (map_to_list (entries m)).
Proof. by unfold visits. Qed.

Lemma visits_empty {T} (m : option (gmap string T)) order :
  entries m = ∅ → visits m order → order = [].
Proof.
  unfold visits. intros -> Hp. rewrite map_to_list_empty in Hp.
  by apply Permutation_nil_r.
Qed.

Lemma visits_list_to_map {T} (files order : list (string * T)) :
  NoDup (files.*1) → order ≡ₚ files → visits (Some (list_to_map files)) order.
Proof.
  intros Hnd Hp. unfold visits. simpl. rewrite Hp.
  symmetry. by apply map_to_list_to_map.
Qed.

Lemma index_list_to_map {T} (files : list (string * T)) fn content :
  index (Some (list_to_map files)) fn = Some content → (fn, content) ∈ files.
Proof. unfold index. simpl. apply elem_of_list_to_map_2. Qed.

(** *** Equality *)

Lemma Equal_range_true order o :
  Equal_range order o = true ↔ ∀ k v, (k, v) ∈ order → index o k = Some v.
Proof.
  induction order as [|[k v1] rest IH]; simpl.
  - split; [|done]. intros _ k v Hin. by apply elem_of_nil in Hin.
  - destruct (index o k) as [v2|] eqn:Hk.
    + destruct (decide (v1 = v2)) as [->|Hne].
      * rewrite IH. split.
        -- intros H k' v' [Heq|Hin]%elem_of_cons; [by simplify_eq|eauto].
        -- intros H k' v' Hin. apply H. by right.
      * split; [done|]. intros H.
        specialize (H k v1 ltac:(left)). congruence.
    + split; [done|]. intros H.
      specialize (H k v1 ltac:(left)). congruence.
Qed.

Lemma same_pairs_entries (a b : option (gmap string string)) :
  (∀ k v, index a k = Some v ↔ index b k = Some v) ↔ entries a = entries b.
Proof.
  unfold index. split.
  - intros H. apply map_eq. intros k. apply option_eq. intros v. apply H.
  - by intros ->.
Qed.

Lemma Equal_visit_true (c o : RulesConfig) order :
  visits (Files c) order →
  Equal_visit order c o = true ↔
    FormatVersion c = FormatVersion o ∧ entries (Files c) = entries (Files o).
Proof.
  intros Hv. unfold Equal_visit.
  destruct (decide (FormatVersion c ≠ FormatVersion o)) as [Hver|Hver].
  { split; [done|]. by intros [? _]. }
  apply dec_stable in Hver.
  destruct (decide (len (Files o) ≠ len (Files c))) as [Hlen|Hlen].
  { split; [done|]. intros [_ Hsame]. exfalso. apply Hlen.
    unfold len. by rewrite Hsame. }
  apply dec_stable in Hlen. rewrite Equal_range_true.
  split.
  - intros Hrange. split; [done|].
    apply map_subseteq_size_eq.
    + apply map_subseteq_spec. intros k v Hk.
      apply Hrange. by apply (visits_elem_of (Files c)).
    + unfold len in Hlen. lia.
  - intros [_ Hsame] k v Hin. unfold index. rewrite <- Hsame.
    by apply (visits_elem_of (Files c) order).
Qed.

(** The result of [Equal] does not depend on the order of the visit. *)
Lemma Equal_visit_order (c o : RulesConfig) order :
  visits (Files c) order → Equal_visit order c o = Equal c o.
Proof.
  intros Hv. unfold Equal.
  pose proof (Equal_visit_true c o order Hv) as H1.
  pose proof (Equal_visit_true c o _ (visits_canonical (Files c))) as H2.
  destruct (Equal_visit order c o), (Equal_visit (map_to_list _) c o);
    try done; intuition.
Qed.

(** C1: for every order in which the loop may visit the files of [c],
    [c.Equal(o)] is true exactly when the two format versions are equal
    and the two file mappings hold the same (name, content) pairs; the
    function is total, so every mismatch gives [false]. *)
Theorem Equal_same_version_same_pairs (c o : RulesConfig) order :
  visits (Files c) order →
  Equal_visit order c o = true ↔
    FormatVersion c = FormatVersion o ∧
    ∀ name content,
      index (Files c) name = Some content ↔
      index (Files o) name = Some content.
Proof.
  intros Hv. rewrite (Equal_visit_true c o order Hv).
  by rewrite same_pairs_entries.
Qed.

(** *** The rules of a view *)

(** C8: the projection of a view is absent exactly when the file mapping
    is nil; otherwise it carries the ID of the view, its rules
    configuration and its deletion time, also when the mapping is set
    and empty. *)
Theorem GetVersionedRulesConfig_nil_iff (v : View) :
  (GetVersionedRulesConfig v = None ↔
     Files (Config_RulesConfig (View_Config v)) = None) ∧
  (Files (Config_RulesConfig (View_Config v)) ≠ None →
     GetVersionedRulesConfig v =
       Some {| VRC_ID := View_ID v;
               VRC_Config := Config_RulesConfig (View_Config v);
               VRC_DeletedAt := View_DeletedAt v |}) ∧
  (Files (Config_RulesConfig (View_Config v)) = Some ∅ →
     GetVersionedRulesConfig v ≠ None).
Proof.
  unfold GetVersionedRulesConfig.
  destruct (Files (Config_RulesConfig (View_Config v))) as [m|];
    repeat split; try done.
Qed.

(** C9: [Equal] takes a nil file mapping and an empty one for the same,
    in both directions, while [GetVersionedRulesConfig] tells them
    apart. *)
Theorem Equal_nil_empty (fv : RuleFormatVersion) (id : ID)
    (am : string) (t : Time) :
  Equal (mkRulesConfig fv None) (mkRulesConfig fv (Some ∅)) = true ∧
  Equal (mkRulesConfig fv (Some ∅)) (mkRulesConfig fv None) = true ∧
  GetVersionedRulesConfig
    (mkView id (mkConfig (mkRulesConfig fv None) am) t) = None ∧
  GetVersionedRulesConfig
    (mkView id (mkConfig (mkRulesConfig fv (Some ∅)) am) t) =
    Some (mkVersionedRulesConfig id (mkRulesConfig fv (Some ∅)) t).
Proof.
  unfold Equal, Equal_visit. simpl.
  rewrite map_to_list_empty. simpl.
  repeat (destruct (decide _); try done).
Qed.

(** *** The encoding of format versions *)

Lemma UnmarshalJSON_error (v : RuleFormatVersion) (data : bytes) e :
  (UnmarshalJSON v data).2 = Some e → (UnmarshalJSON v data).1 = v.
Proof.
  unfold UnmarshalJSON.
  destruct (json_Unmarshal_string data EmptyString) as [s|e']; [|done].
  repeat case_decide; done.
Qed.


(** Decoding what the encoder wrote gives the version back, when the JSON
    layer reads back the strings it writes. *)
Lemma MarshalJSON_UnmarshalJSON (v v0 : RuleFormatVersion) (data : bytes) :
  (∀ s, json_Unmarshal_string (json_Marshal_string s) EmptyString = Ok s) →
  MarshalJSON v = (Some data, None) →
  UnmarshalJSON v0 data = (v, None).
Proof.
  intros Hrt. unfold MarshalJSON, UnmarshalJSON.
  repeat case_decide; intros [= <-]; rewrite Hrt; by subst.
Qed.

(** *** The decoding of configurations *)

Lemma decode_members_version ms compat saved :
  (∀ key raw, (key, raw) ∈ ms →
     json_key_matches "rule_format_version" key = false) →
  compat_RuleFormatVersion (decode_members ms compat saved).1 =
    compat_RuleFormatVersion compat.
Proof.
  revert compat saved.
  induction ms as [|[key raw] rest IH]; intros compat saved Hno; [done|].
  assert (Hrest : ∀ key raw, (key, raw) ∈ rest →
            json_key_matches "rule_format_version" key = false).
  { intros k r Hin. apply (Hno k r). by right. }
  simpl. rewrite (Hno key raw) by left.
  destruct (json_key_matches "rules_files" key).
  { destruct (json_Unmarshal_map raw _); by rewrite IH. }
  destruct (json_key_matches "alertmanager_config" key).
  { destruct (json_Unmarshal_string raw _); by rewrite IH. }
  by rewrite IH.
Qed.

Lemma decode_members_no_error ms compat :
  (∀ key raw, (key, raw) ∈ ms →
     json_key_matches "rule_format_version" key = false) →
  (∀ key raw m, (key, raw) ∈ ms → json_key_matches "rules_files" key = true →
     ∃ m', json_Unmarshal_map raw m = Ok m') →
  (∀ key raw s, (key, raw) ∈ ms →
     json_key_matches "alertmanager_config" key = true →
     ∃ s', json_Unmarshal_string raw s = Ok s') →
  (decode_members ms compat None).2 = None.
Proof.
  revert compat.
  induction ms as [|[key raw] rest IH]; intros compat Hno Hmap Hstr; [done|].
  assert (Hrest : ∀ k r, (k, r) ∈ rest → (k, r) ∈ (key, raw) :: rest)
    by (intros; by right).
  simpl. rewrite (Hno key raw) by left.
  destruct (json_key_matches "rules_files" key) eqn:Hf.
  { destruct (Hmap key raw (compat_RulesFiles compat)) as [m' ->];
      [by left|done|]. apply IH; eauto. }
  destruct (json_key_matches "alertmanager_config" key) eqn:Ha.
  { destruct (Hstr key raw (compat_AlertmanagerConfig compat)) as [s' ->];
      [by left|done|]. apply IH; eauto. }
  apply IH; eauto.
Qed.

(** C4: a record that the JSON layer reads as an object none of whose
    members selects the field [rule_format_version], and whose members for
    the two other fields decode, is decoded without error into a
    configuration whose format version is V1. *)
Theorem Config_UnmarshalJSON_no_version (c : Config) (data : bytes) ms :
  json_object data = Ok ms →
  (∀ key raw, (key, raw) ∈ ms →
     json_key_matches "rule_format_version" key = false) →
  (∀ key raw m, (key, raw) ∈ ms → json_key_matches "rules_files" key = true →
     ∃ m', json_Unmarshal_map raw m = Ok m') →
  (∀ key raw s, (key, raw) ∈ ms →
     json_key_matches "alertmanager_config" key = true →
     ∃ s', json_Unmarshal_string raw s = Ok s') →
  ∃ c', Config_UnmarshalJSON c data = (c', None) ∧
        FormatVersion (Config_RulesConfig c') = RuleFormatV1.
Proof.
  intros Hobj Hno Hmap Hstr.
  unfold Config_UnmarshalJSON, json_Unmarshal_configCompat. rewrite Hobj.
  set (zero := {| compat_RulesFiles := None; compat_RuleFormatVersion := 0;
                  compat_AlertmanagerConfig := EmptyString |}).
  pose proof (decode_members_version ms zero None Hno) as Hver.
  pose proof (decode_members_no_error ms zero Hno Hmap Hstr) as Herr.
  destruct (decode_members ms zero None) as [compat saved].
  simpl in *. subst saved. eexists. split; [done|]. simpl. by rewrite Hver.
Qed.

(** *** The dispatch of [Parse] *)

(** C7: with a format version that is neither V1 nor V2, [Parse] returns a
    nil mapping and the error whose message ends with the decimal value of
    the version, whatever the files. *)
Theorem Parse_unknown_version (c : RulesConfig) order :
  FormatVersion c ≠ RuleFormatV1 → FormatVersion c ≠ RuleFormatV2 →
  Parse order c =
    (None, Some (Errorf ("unknown rule format version "
                           +:+ pretty (FormatVersion c)))).
Proof. intros H1 H2. unfold Parse. by repeat case_decide. Qed.

(** C10: with a known format version and a file mapping that is nil or
    empty, [Parse] returns an allocated, empty mapping and no error. *)
Theorem Parse_no_files (c : RulesConfig) order :
  FormatVersion c = RuleFormatV1 ∨ FormatVersion c = RuleFormatV2 →
  Files c = None ∨ Files c = Some ∅ →
  visits (Files c) order →
  Parse order c = (Some ∅, None).
Proof.
  intros Hver Hfiles Hv.
  assert (order = []) as ->.
  { apply (visits_empty (Files c)); [|done]. by destruct Hfiles as [->| ->]. }
  unfold Parse. destruct Hver as [-> | ->]; by repeat case_decide.
Qed.

(** [Parse] returns for every configuration. *)
Lemma Parse_returns_total (c : RulesConfig) : ∃ r, Parse_returns c r.
Proof.
  exists (Parse (map_to_list (entries (Files c))) c).
  exists (map_to_list (entries (Files c))). split; [|done].
  apply visits_canonical.
Qed.

(** *** The 2.x parser *)

Lemma visits_split {T} (m : option (gmap string T)) order fn content :
  visits m order → index m fn = Some content →
  ∃ before after, order = before ++ (fn, content) :: after ∧
    ∀ fn' content', (fn', content') ∈ before →
      fn' ≠ fn ∧ index m fn' = Some content'.
Proof.
  intros Hv Hin.
  assert (Hnd : NoDup (order.*1)).
  { unfold visits in Hv. rewrite Hv. apply NoDup_fst_map_to_list. }
  apply (visits_elem_of m order) in Hin; [|done].
  apply list_elem_of_split in Hin as (before & after & ->).
  exists before, after. split; [done|]. intros fn' content' Hin'.
  split.
  - rewrite fmap_app, fmap_cons in Hnd. apply NoDup_app in Hnd as (_ & Hdisj & _).
    intros ->. apply (Hdisj fn); [|by left].
    apply list_elem_of_fmap. by exists (fn, content').
  - apply (visits_elem_of m _ fn' content' Hv).
    apply elem_of_app. by left.
Qed.

Lemma parseV2_rules_Done rs rls :
  (∀ rl, rl ∈ rs → ∃ expr, promql_ParseExpr (Expr rl) = Ok expr) →
  ∃ out, parseV2_rules rs rls = Done out.
Proof.
  revert rls. induction rs as [|rl rest IH]; intros rls Hok; simpl; [eauto|].
  destruct (Hok rl) as [expr ->]; [by left|].
  case_decide; apply IH; intros; apply Hok; by right.
Qed.

Lemma parseV2_rules_Abort rs rls err :
  parseV2_rules rs rls = Abort err →
  ∃ rl e, rl ∈ rs ∧ promql_ParseExpr (Expr rl) = Fail e ∧ err = Foreign e.
Proof.
  revert rls. induction rs as [|rl rest IH]; intros rls; simpl; [done|].
  destruct (promql_ParseExpr (Expr rl)) as [expr|e] eqn:Hp.
  - case_decide; intros (rl' & e & Hin & ? & ?)%IH;
      exists rl', e; split_and!; try done; by right.
  - intros [= <-]. exists rl, e. split_and!; [by left|done..].
Qed.

Lemma parseV2_groups_Done fn rgs groups :
  (∀ rg rl, rg ∈ rgs → rl ∈ Rules rg →
     ∃ expr, promql_ParseExpr (Expr rl) = Ok expr) →
  ∃ groups', parseV2_groups fn rgs groups = Done groups'.
Proof.
  revert groups. induction rgs as [|rg rest IH]; intros groups Hok; simpl;
    [eauto|].
  destruct (parseV2_rules_Done (Rules rg) []) as [rls ->].
  { intros rl Hin. apply (Hok rg); [by left|done]. }
  simpl. apply IH. intros rg' rl Hin. apply Hok. by right.
Qed.

Lemma parseV2_groups_Abort fn rgs groups err :
  parseV2_groups fn rgs groups = Abort err →
  ∃ rg rl e, rg ∈ rgs ∧ rl ∈ Rules rg ∧
    promql_ParseExpr (Expr rl) = Fail e ∧ err = Foreign e.
Proof.
  revert groups. induction rgs as [|rg rest IH]; intros groups; simpl; [done|].
  destruct (parseV2_rules (Rules rg) []) as [rls|err'] eqn:Hr; simpl.
  - intros (rg' & rl & e & ? & ? & ? & ?)%IH.
    exists rg', rl, e. split_and!; try done. by right.
  - intros [= <-]. apply parseV2_rules_Abort in Hr as (rl & e & ? & ? & ?).
    exists rg, rl, e. split_and!; try done. by left.
Qed.

(** What the loop over the groups of a file leaves in the mapping. *)
Lemma parseV2_groups_spec fn rgs groups groups' :
  parseV2_groups fn rgs groups = Done groups' →
  (∀ rg, rg ∈ rgs → ∃ rls, parseV2_rules (Rules rg) [] = Done rls) ∧
  (∀ key, is_Some (groups' !! key) ↔
     is_Some (groups !! key) ∨
     ∃ rg, rg ∈ rgs ∧ key = group_key (Name rg) fn) ∧
  (∀ key rls, groups' !! key = Some rls →
     groups !! key = Some rls ∨
     ∃ rg, rg ∈ rgs ∧ key = group_key (Name rg) fn ∧
           parseV2_rules (Rules rg) [] = Done rls).
Proof.
  revert groups. induction rgs as [|rg rest IH]; intros groups; simpl.
  - intros [= <-]. split_and!.
    + intros rg Hin. by apply elem_of_nil in Hin.
    + intros key. split; [by left|].
      intros [?|(rg & Hin & _)]; [done|]. by apply elem_of_nil in Hin.
    + intros key rls ?. by left.
  - destruct (parseV2_rules (Rules rg) []) as [rls|err'] eqn:Hr; simpl; [|done].
    intros (Hall & Hdom & Hval)%IH. split_and!.
    + intros rg' [->|Hin]%elem_of_cons; eauto.
    + intros key. rewrite Hdom, lookup_insert_is_Some. split.
      * intros [[<-|[_ ?]]|(rg' & Hin & ->)]; [right|by left|right].
        -- exists rg. split; [by left|done].
        -- exists rg'. split; [by right|done].
      * intros [?|(rg' & [->|Hin]%elem_of_cons & ->)].
        -- destruct (decide (group_key (Name rg) fn = key)); left; auto.
        -- left. by left.
        -- right. eauto.
    + intros key rls' [Hk|(rg' & Hin & -> & Hrls)]%Hval.
      * apply lookup_insert_Some in Hk as [[<- <-]|[_ ?]]; [right|by left].
        exists rg. split_and!; [by left|done..].
      * right. exists rg'. split_and!; [by right|done..].
Qed.

(** What the loop over the files leaves in the mapping. *)
Lemma parseV2_files_spec order groups groups' :
  parseV2_files order groups = Done groups' →
  (∀ fn content, (fn, content) ∈ order →
     (rulefmt_Parse content).2 = [] ∧
     ∀ rg, rg ∈ groups_of content →
       ∃ rls, parseV2_rules (Rules rg) [] = Done rls) ∧
  (∀ key, is_Some (groups' !! key) ↔
     is_Some (groups !! key) ∨
     ∃ fn content rg, (fn, content) ∈ order ∧ rg ∈ groups_of content ∧
       key = group_key (Name rg) fn) ∧
  (∀ key rls, groups' !! key = Some rls →
     groups !! key = Some rls ∨
     ∃ fn content rg, (fn, content) ∈ order ∧ rg ∈ groups_of content ∧
       key = group_key (Name rg) fn ∧
       parseV2_rules (Rules rg) [] = Done rls).
Proof.
  revert groups. induction order as [|[fn content] rest IH]; intros groups; simpl.
  - intros [= <-]. split_and!.
    + intros fn content Hin. by apply elem_of_nil in Hin.
    + intros key. split; [by left|].
      intros [?|(? & ? & ? & Hin & _)]; [done|]. by apply elem_of_nil in Hin.
    + intros key rls ?. by left.
  - destruct (rulefmt_Parse content) as [rgs [|e es]] eqn:Hp; [|done].
    destruct (parseV2_groups fn (Groups rgs) groups) as [groups1|err'] eqn:Hg;
      simpl; [|done].
    apply parseV2_groups_spec in Hg as (Gall & Gdom & Gval).
    intros (Hall & Hdom & Hval)%IH.
    assert (Hgo : groups_of content = Groups rgs)
      by (unfold groups_of; by rewrite Hp).
    split_and!.
    + intros fn' content' [[= -> ->]|Hin]%elem_of_cons; [|by apply (Hall fn')].
      rewrite Hgo, Hp. split; [done|]. apply Gall.
    + intros key. rewrite Hdom, Gdom. split.
      * intros [[?|(rg & Hin & ->)]|(fn' & content' & rg & Hin & ? & ->)].
        -- by left.
        -- right. exists fn, content, rg. rewrite Hgo.
           split_and!; [by left|done..].
        -- right. exists fn', content', rg. split_and!; [by right|done..].
      * intros [?|(fn' & content' & rg & [[= -> ->]|Hin]%elem_of_cons & Hrg & ->)].
        -- left. by left.
        -- left. right. exists rg. rewrite Hgo in Hrg. done.
        -- right. eauto 10.
    + intros key rls [Hk|(fn' & content' & rg & Hin & ? & -> & ?)]%Hval.
      * apply Gval in Hk as [?|(rg & Hin & -> & ?)]; [by left|].
        right. exists fn, content, rg. rewrite Hgo.
        split_and!; [by left|done..].
      * right. exists fn', content', rg. split_and!; [by right|done..].
Qed.

(** Where an error of the loop over the files comes from. *)
Lemma parseV2_files_Abort order groups err :
  parseV2_files order groups = Abort err →
  (∃ fn content e es, (fn, content) ∈ order ∧
     (rulefmt_Parse content).2 = e :: es ∧
     err = Errorf (error_parsing fn (Error e))) ∨
  (∃ fn content rg rl e, (fn, content) ∈ order ∧
     (rulefmt_Parse content).2 = [] ∧
     rg ∈ groups_of content ∧ rl ∈ Rules rg ∧
     promql_ParseExpr (Expr rl) = Fail e ∧ err = Foreign e).
Proof.
  revert groups. induction order as [|[fn content] rest IH]; intros groups;
    simpl; [done|].
  destruct (rulefmt_Parse content) as [rgs [|e es]] eqn:Hp.
  - destruct (parseV2_groups fn (Groups rgs) groups) as [groups1|err'] eqn:Hg;
      simpl.
    + intros [(fn' & content' & e & es & Hin & ? & ?)
             |(fn' & content' & rg & rl & e & Hin & ? & ? & ? & ? & ?)]%IH.
      * left. exists fn', content', e, es. split_and!; [by right|done..].
      * right. exists fn', content', rg, rl, e. split_and!; [by right|done..].
    + intros [= <-].
      apply parseV2_groups_Abort in Hg as (rg & rl & e & ? & ? & ? & ?).
      right. exists fn, content, rg, rl, e. unfold groups_of. rewrite Hp.
      split_and!; [by left|done..].
  - intros [= <-]. left. exists fn, content, e, es. rewrite Hp.
    split_and!; [by left|done..].
Qed.

Lemma parseV2_files_group_failure order groups fn content :
  (fn, content) ∈ order → (rulefmt_Parse content).2 ≠ [] →
  ∃ err, parseV2_files order groups = Abort err.
Proof.
  intros Hin Hne.
  destruct (parseV2_files order groups) as [groups'|err] eqn:Hf; [|eauto].
  apply parseV2_files_spec in Hf as (Hall & _).
  by destruct (Hall fn content Hin).
Qed.

Lemma parseV2_files_clean_prefix before rest groups :
  (∀ fn content, (fn, content) ∈ before → file_parses_V2 content) →
  ∃ groups', parseV2_files (before ++ rest) groups = parseV2_files rest groups'.
Proof.
  revert groups. induction before as [|[fn content] before IH];
    intros groups Hclean; simpl; [eauto|].
  destruct (Hclean fn content) as [Herrs Hexprs]; [by left|].
  unfold groups_of in Hexprs.
  destruct (rulefmt_Parse content) as [rgs errs]. simpl in *. subst errs.
  destruct (parseV2_groups_Done fn (Groups rgs) groups) as [groups1 ->];
    [done|].
  simpl. apply IH. intros fn' content' Hin. apply (Hclean fn'). by right.
Qed.

Lemma parseV2_rules_Done_inv rs rls out :
  parseV2_rules rs rls = Done out →
  ∀ rl, rl ∈ rs → ∃ expr, promql_ParseExpr (Expr rl) = Ok expr.
Proof.
  intros Hd rl Hin.
  destruct (promql_ParseExpr (Expr rl)) as [expr|e] eqn:Hp; [eauto|].
  exfalso. revert rls Hd.
  induction rs as [|rl' rest IH]; intros rls; simpl;
    [by apply elem_of_nil in Hin|].
  apply elem_of_cons in Hin as [<-|Hin].
  - by rewrite Hp.
  - destruct (promql_ParseExpr (Expr rl')); [|done]. case_decide; eauto.
Qed.

Lemma Parse_V1 (c : RulesConfig) order :
  FormatVersion c = RuleFormatV1 → Parse order c = parseV1 order.
Proof. intros Hver. unfold Parse. by rewrite decide_True. Qed.

Lemma Parse_V2 (c : RulesConfig) order :
  FormatVersion c = RuleFormatV2 → Parse order c = parseV2 order.
Proof.
  intros Hver. unfold Parse. rewrite Hver.
  rewrite decide_False by done. by rewrite decide_True.
Qed.

Lemma returns_Abort {T} (x : outcome E T) err :
  x = Abort err → returns x = (None, Some err).
Proof. by intros ->. Qed.

Lemma returns_Done {T} (x : outcome E T) t :
  returns x = (Some t, None) → x = Done t.
Proof. destruct x; simpl; by intros [= ->]. Qed.

Lemma validated_parses (content : string) :
  rulefmt_validates → (rulefmt_Parse content).2 = [] → file_parses_V2 content.
Proof. intros Hval Hnil. split; [done|]. by apply Hval. Qed.

(** The first file of a visit that fails the group parser. *)
Lemma first_group_failure (order : list (string * string)) fn content :
  (fn, content) ∈ order → (rulefmt_Parse content).2 ≠ [] →
  ∃ before fn' content' after e' es',
    order = before ++ (fn', content') :: after ∧
    (∀ f c0, (f, c0) ∈ before → (rulefmt_Parse c0).2 = []) ∧
    (rulefmt_Parse content').2 = e' :: es'.
Proof.
  induction order as [|[f c0] rest IH]; intros Hin Hne;
    [by apply elem_of_nil in Hin|].
  destruct ((rulefmt_Parse c0).2) as [|e' es'] eqn:Hc0.
  - apply elem_of_cons in Hin as [[= <- <-]|Hin]; [done|].
    destruct (IH Hin Hne)
      as (before & fn' & content' & after & e' & es' & -> & Hbefore & Herr).
    exists ((f, c0) :: before), fn', content', after, e', es'.
    split_and!; [done| |done].
    intros f1 c1 [[= -> ->]|Hin1]%elem_of_cons; [done|by apply (Hbefore f1)].
  - exists [], f, c0, rest, e', es'. split_and!; [done| |done].
    intros f1 c1 Hin1. by apply elem_of_nil in Hin1.
Qed.

Lemma parseV2_files_first_failure (before after : list (string * string))
    fn content e es groups :
  rulefmt_validates →
  (∀ f c0, (f, c0) ∈ before → (rulefmt_Parse c0).2 = []) →
  (rulefmt_Parse content).2 = e :: es →
  parseV2_files (before ++ (fn, content) :: after) groups =
    Abort (Errorf (error_parsing fn (Error e))).
Proof.
  intros Hval Hbefore Herr.
  destruct (parseV2_files_clean_prefix before ((fn, content) :: after) groups)
    as [groups' ->].
  { intros f c0 Hin. apply validated_parses; [done|]. by apply (Hbefore f). }
  simpl. destruct (rulefmt_Parse content) as [rgs errs].
  simpl in Herr. by subst errs.
Qed.

(** C2: [rulefmt.Parse] being the parser that checks the expressions of
    the rules, when a file of a 2.x configuration fails the group parser,
    [Parse] returns a nil mapping and an error made of the name of a file
    that fails the group parser and of the first error reported for that
    file, whatever the order of the visit: no rule of any file is
    returned.  The file named is the first failing file visited; it is
    the given file when that one is visited before any other failing
    file, and so when no other file fails. *)
Theorem parseV2_group_failure (c : RulesConfig) order fn content e es :
  rulefmt_validates →
  FormatVersion c = RuleFormatV2 →
  visits (Files c) order →
  index (Files c) fn = Some content →
  (rulefmt_Parse content).2 = e :: es →
  (∃ fn' content' e' es',
     index (Files c) fn' = Some content' ∧
     (rulefmt_Parse content').2 = e' :: es' ∧
     Parse order c = (None, Some (Errorf (error_parsing fn' (Error e'))))) ∧
  (∀ before after,
     order = before ++ (fn, content) :: after →
     (∀ f c0, (f, c0) ∈ before → (rulefmt_Parse c0).2 = []) →
     Parse order c = (None, Some (Errorf (error_parsing fn (Error e))))) ∧
  ((∀ fn' content', index (Files c) fn' = Some content' → fn' ≠ fn →
      (rulefmt_Parse content').2 = []) →
   Parse order c = (None, Some (Errorf (error_parsing fn (Error e))))).
Proof.
  intros Hval Hver Hv Hfn Herrs. rewrite (Parse_V2 c order Hver).
  unfold parseV2.
  assert (Hin : (fn, content) ∈ order)
    by (by apply (visits_elem_of (Files c))).
  split_and!.
  - destruct (first_group_failure order fn content Hin)
      as (before & fn' & content' & after & e' & es' & Heq & Hbefore & Herr).
    { by rewrite Herrs. }
    exists fn', content', e', es'. split_and!; [|done|].
    + apply (visits_elem_of (Files c) order _ _ Hv). rewrite Heq.
      apply elem_of_app. right. by left.
    + rewrite Heq.
      by rewrite (parseV2_files_first_failure before after fn' content' e' es').
  - intros before after -> Hbefore.
    by rewrite (parseV2_files_first_failure before after fn content e es).
  - intros Hothers.
    destruct (visits_split (Files c) order fn content Hv Hfn)
      as (before & after & -> & Hbefore).
    rewrite (parseV2_files_first_failure before after fn content e es);
      [done..| |done].
    intros f c0 Hin0. destruct (Hbefore f c0 Hin0) as [Hne Hidx].
    by apply (Hothers f).
Qed.

Lemma append_nil_l (s : string) : EmptyString +:+ s = s.
Proof. reflexivity. Qed.

Lemma append_cons (a : Ascii.ascii) (s t : string) :
  String a s +:+ t = String a (s +:+ t).
Proof. reflexivity. Qed.

Lemma group_key_cons (name fn : string) :
  group_key name fn = name +:+ String ";"%char fn.
Proof. reflexivity. Qed.

Lemma has_semicolon_app (n f : string) :
  has_semicolon (n +:+ String ";"%char f) = true.
Proof.
  induction n as [|a n IH]; rewrite ?append_nil_l, ?append_cons; simpl.
  - done.
  - by case_decide.
Qed.

Lemma group_key_inj n1 f1 n2 f2 :
  has_semicolon f1 = false → has_semicolon f2 = false →
  group_key n1 f1 = group_key n2 f2 → n1 = n2 ∧ f1 = f2.
Proof.
  rewrite !group_key_cons. intros H1 H2. revert n2.
  induction n1 as [|a n1 IH]; intros [|b n2];
    rewrite ?append_nil_l, ?append_cons.
  - by intros [= ->].
  - intros [= <- ->]. by rewrite has_semicolon_app in H1.
  - intros [= -> <-]. by rewrite has_semicolon_app in H2.
  - intros [= -> [-> ->]%IH]. done.
Qed.

Lemma NoDup_fmap_elem {A B} (f : A → B) (l : list A) x y :
  NoDup (f <$> l) → x ∈ l → y ∈ l → f x = f y → x = y.
Proof.
  induction l as [|a l IH]; simpl; [by intros _ ?%elem_of_nil|].
  rewrite NoDup_cons.
  intros [Hnotin Hnd] [->|Hx]%elem_of_cons [->|Hy]%elem_of_cons Heq;
    [done| | |by apply IH].
  - exfalso. apply Hnotin. rewrite Heq. by apply list_elem_of_fmap_2.
  - exfalso. apply Hnotin. rewrite <- Heq. by apply list_elem_of_fmap_2.
Qed.

(** C5, as amended: after a successful 2.x parse, the key made of the
    name of a parsed group, a semicolon and the name of its file is in the
    result, and every entry of the result holds, under such a key, the
    rules of a group that makes this key.  Two (file, group) pairs whose
    file names hold no semicolon make the same key only when they have
    the same file name and the same group name.  When no file name holds
    a semicolon and no file repeats a group name, every group's rules are
    in the result under the group's key. *)
Theorem parseV2_group_keys (c : RulesConfig) order groups :
  FormatVersion c = RuleFormatV2 →
  visits (Files c) order →
  Parse order c = (Some groups, None) →
  (∀ fn content rg,
     index (Files c) fn = Some content → rg ∈ groups_of content →
     is_Some (groups !! group_key (Name rg) fn)) ∧
  (∀ key rls, groups !! key = Some rls →
     ∃ fn content rg,
       index (Files c) fn = Some content ∧ rg ∈ groups_of content ∧
       key = (Name rg +:+ ";" +:+ fn) ∧
       parseV2_rules (Rules rg) [] = Done rls) ∧
  (∀ fn1 name1 fn2 name2,
     has_semicolon fn1 = false → has_semicolon fn2 = false →
     group_key name1 fn1 = group_key name2 fn2 →
     fn1 = fn2 ∧ name1 = name2) ∧
  ((∀ fn content, index (Files c) fn = Some content →
      has_semicolon fn = false ∧ NoDup (Name <$> groups_of content)) →
   ∀ fn content rg,
     index (Files c) fn = Some content → rg ∈ groups_of content →
     ∃ rls, parseV2_rules (Rules rg) [] = Done rls ∧
            groups !! group_key (Name rg) fn = Some rls).
Proof.
  intros Hver Hv. rewrite (Parse_V2 c order Hver). unfold parseV2.
  intros (_ & Hdom & Hval)%returns_Done%parseV2_files_spec.
  assert (Hpresent : ∀ fn content rg,
            index (Files c) fn = Some content → rg ∈ groups_of content →
            is_Some (groups !! group_key (Name rg) fn)).
  { intros fn content rg Hfn Hrg. apply Hdom. right.
    exists fn, content, rg. split_and!; try done.
    by apply (visits_elem_of (Files c) order). }
  assert (Hsound : ∀ key rls, groups !! key = Some rls →
            ∃ fn content rg,
              index (Files c) fn = Some content ∧ rg ∈ groups_of content ∧
              key = group_key (Name rg) fn ∧
              parseV2_rules (Rules rg) [] = Done rls).
  { intros key rls [Hk|(fn & content & rg & Hin & ? & ? & ?)]%Hval.
    { by rewrite lookup_empty in Hk. }
    exists fn, content, rg. split_and!; try done.
    by apply (visits_elem_of (Files c) order). }
  split_and!; [done|done| |].
  - intros fn1 name1 fn2 name2 H1 H2 Hkey.
    by destruct (group_key_inj name1 fn1 name2 fn2 H1 H2 Hkey).
  - intros Hnames fn content rg Hfn Hrg.
    destruct (Hpresent fn content rg Hfn Hrg) as [rls Hk].
    exists rls. split; [|done].
    destruct (Hsound _ _ Hk) as (fn' & content' & rg' & Hfn' & Hrg' & Hkey & Hrls).
    destruct (Hnames fn content Hfn) as [Hs Hnd].
    destruct (Hnames fn' content' Hfn') as [Hs' _].
    apply group_key_inj in Hkey as [Hname ->]; [|done..].
    rewrite Hfn in Hfn'. injection Hfn' as <-.
    by rewrite (NoDup_fmap_elem Name (groups_of content) rg rg' Hnd Hrg Hrg' Hname).
Qed.

(** *** The 1.x parser *)

Lemma parseV1_stmts_Done stmts ra :
  (∀ stmt, stmt ∈ stmts →
     ∃ x expr, stmt_expr stmt = Some x ∧
               promql_ParseExpr (LExpr_String x) = Ok expr) →
  ∃ out, parseV1_stmts stmts ra = Done out.
Proof.
  revert ra. induction stmts as [|stmt rest IH]; intros ra Hok; simpl;
    [eauto|].
  destruct (Hok stmt) as (x & expr & Hx & Hp); [by left|].
  assert (Hrest : ∀ stmt, stmt ∈ rest →
            ∃ x expr, stmt_expr stmt = Some x ∧
                      promql_ParseExpr (LExpr_String x) = Ok expr).
  { intros stmt' Hin. apply Hok. by right. }
  destruct stmt; simpl in Hx; simplify_eq; rewrite Hp; by apply IH.
Qed.

Lemma parseV1_stmts_Abort stmts ra err :
  parseV1_stmts stmts ra = Abort err →
  (∃ stmt x e, stmt ∈ stmts ∧ stmt_expr stmt = Some x ∧
     promql_ParseExpr (LExpr_String x) = Fail e ∧ err = Foreign e) ∨
  (OtherStmt ∈ stmts ∧
   err = Errorf "ruler.GetRules: unknown statement type").
Proof.
  revert ra. induction stmts as [|stmt rest IH]; intros ra; simpl; [done|].
  assert (Htail : ∀ ra, parseV1_stmts rest ra = Abort err →
    (∃ stmt' x e, stmt' ∈ stmt :: rest ∧ stmt_expr stmt' = Some x ∧
       promql_ParseExpr (LExpr_String x) = Fail e ∧ err = Foreign e) ∨
    (OtherStmt ∈ stmt :: rest ∧
     err = Errorf "ruler.GetRules: unknown statement type")).
  { intros ra' [(stmt' & x & e & ? & ? & ? & ?)|[? ?]]%IH.
    - left. exists stmt', x, e. split_and!; try done. by right.
    - right. split; [by right|done]. }
  destruct stmt as [name x duration lbls anns|name x lbls|].
  - destruct (promql_ParseExpr (LExpr_String x)) as [expr|e] eqn:Hp;
      [by apply Htail|].
    intros [= <-]. left. eexists _, x, e. split_and!; [by left|done..].
  - destruct (promql_ParseExpr (LExpr_String x)) as [expr|e] eqn:Hp;
      [by apply Htail|].
    intros [= <-]. left. eexists _, x, e. split_and!; [by left|done..].
  - intros [= <-]. right. split; [by left|done].
Qed.

Lemma parseV1_stmts_Done_inv stmts ra out :
  parseV1_stmts stmts ra = Done out →
  ∀ stmt, stmt ∈ stmts →
    ∃ x expr, stmt_expr stmt = Some x ∧
              promql_ParseExpr (LExpr_String x) = Ok expr.
Proof.
  revert ra. induction stmts as [|stmt rest IH]; intros ra; simpl.
  - intros _ stmt Hin. by apply elem_of_nil in Hin.
  - destruct stmt as [name x duration lbls anns|name x lbls|]; [| |done];
      (destruct (promql_ParseExpr (LExpr_String x)) as [expr|e] eqn:Hp;
         [|done]);
      intros Hd stmt' [->|Hin]%elem_of_cons; eauto.
Qed.

Lemma parseV1_files_clean_prefix before rest result :
  (∀ fn content, (fn, content) ∈ before → file_parses_V1 content) →
  ∃ result', parseV1_files (before ++ rest) result = parseV1_files rest result'.
Proof.
  revert result. induction before as [|[fn content] before IH];
    intros result Hclean; simpl; [eauto|].
  destruct (Hclean fn content) as (stmts & -> & Hstmts); [by left|].
  destruct (parseV1_stmts_Done stmts []) as [ra ->]; [done|].
  simpl. apply IH. intros fn' content' Hin. apply (Hclean fn'). by right.
Qed.

(** C6, as amended: in either adapter, at the first file that does not
    parse, a failure of the parser of the file (the group grammar for 2.x,
    the statement grammar for 1.x) is returned as a new error made of the
    file name and the text of the cause, while a failure of the expression
    parser on a rule of the file is returned as the expression parser gave
    it, with no file name added. *)
Theorem parse_error_context (before after : list (string * string))
    (fn content : string) :
  ((∀ f c, (f, c) ∈ before → file_parses_V2 c) →
     (∀ e es, (rulefmt_Parse content).2 = e :: es →
        parseV2 (before ++ (fn, content) :: after) =
          (None, Some (Errorf (error_parsing fn (Error e))))) ∧
     ((rulefmt_Parse content).2 = [] →
      (∃ rg rl e, rg ∈ groups_of content ∧ rl ∈ Rules rg ∧
         promql_ParseExpr (Expr rl) = Fail e) →
      ∃ rg rl e, rg ∈ groups_of content ∧ rl ∈ Rules rg ∧
        promql_ParseExpr (Expr rl) = Fail e ∧
        parseV2 (before ++ (fn, content) :: after) =
          (None, Some (Foreign e)))) ∧
  ((∀ f c, (f, c) ∈ before → file_parses_V1 c) →
     (∀ e, legacy_ParseStmts content = Fail e →
        parseV1 (before ++ (fn, content) :: after) =
          (None, Some (Errorf (error_parsing fn (Error e))))) ∧
     (∀ stmts, legacy_ParseStmts content = Ok stmts → OtherStmt ∉ stmts →
      (∃ stmt x e, stmt ∈ stmts ∧ stmt_expr stmt = Some x ∧
         promql_ParseExpr (LExpr_String x) = Fail e) →
      ∃ stmt x e, stmt ∈ stmts ∧ stmt_expr stmt = Some x ∧
        promql_ParseExpr (LExpr_String x) = Fail e ∧
        parseV1 (before ++ (fn, content) :: after) =
          (None, Some (Foreign e)))).
Proof.
  split.
  - intros Hclean. unfold parseV2.
    destruct (parseV2_files_clean_prefix before ((fn, content) :: after) ∅
                Hclean) as [groups' Heq].
    split.
    + intros e es Herrs. rewrite Heq. simpl.
      destruct (rulefmt_Parse content) as [rgs errs]. simpl in Herrs.
      by subst errs.
    + intros Hnil (rg & rl & e & Hrg & Hrl & Hfail).
      assert (∃ err,
                parseV2_groups fn (groups_of content) groups' = Abort err)
        as [err Hab].
      { destruct (parseV2_groups fn (groups_of content) groups')
          as [groups1|err] eqn:Hg; [|eauto].
        exfalso. apply parseV2_groups_spec in Hg as (Hall & _).
        destruct (Hall rg Hrg) as [rls Hrls].
        destruct (parseV2_rules_Done_inv _ _ _ Hrls rl Hrl) as [expr Hexpr].
        congruence. }
      pose proof Hab as (rg' & rl' & e' & ? & ? & ? & ->)%parseV2_groups_Abort.
      exists rg', rl', e'. split_and!; try done.
      rewrite Heq. simpl. unfold groups_of in Hab.
      destruct (rulefmt_Parse content) as [rgs errs]. simpl in *.
      subst errs. by rewrite Hab.
  - intros Hclean. unfold parseV1.
    destruct (parseV1_files_clean_prefix before ((fn, content) :: after) ∅
                Hclean) as [result' Heq].
    split.
    + intros e Hfail. rewrite Heq. simpl. by rewrite Hfail.
    + intros stmts Hok Hother (stmt & x & e & Hin & Hx & Hfail).
      assert (∃ err, parseV1_stmts stmts [] = Abort err) as [err Hab].
      { destruct (parseV1_stmts stmts []) as [ra|err] eqn:Hs; [|eauto].
        exfalso.
        destruct (parseV1_stmts_Done_inv _ _ _ Hs stmt Hin)
          as (x' & expr & Hx' & Hexpr).
        congruence. }
      pose proof Hab as [(stmt' & x' & e' & ? & ? & ? & ->)|[? _]]%parseV1_stmts_Abort;
        [|done].
      exists stmt', x', e'. split_and!; try done.
      rewrite Heq. simpl. rewrite Hok. by rewrite Hab.
Qed.

(** ** Further properties *)

(** *** Equality *)

Lemma Equal_true (c o : RulesConfig) :
  Equal c o = true ↔
    FormatVersion c = FormatVersion o ∧ entries (Files c) = entries (Files o).
Proof. apply Equal_visit_true, visits_canonical. Qed.

(** X1: the result of [c.Equal(o)] is the same for every order in which
    the loop visits the files of [c]. *)
Theorem Equal_any_order (c o : RulesConfig) order1 order2 :
  visits (Files c) order1 → visits (Files c) order2 →
  Equal_visit order1 c o = Equal_visit order2 c o.
Proof.
  intros H1 H2.
  by rewrite (Equal_visit_order c o order1 H1), (Equal_visit_order c o order2 H2).
Qed.

(** X2: [Equal] is an equivalence: reflexive, symmetric although the code
    ranges over the files of its receiver only, and transitive. *)
Theorem Equal_equivalence :
  (∀ c, Equal c c = true) ∧
  (∀ c o, Equal c o = Equal o c) ∧
  (∀ a b c, Equal a b = true → Equal b c = true → Equal a c = true).
Proof.
  split_and!.
  - intros c. by apply Equal_true.
  - intros c o.
    pose proof (Equal_true c o) as H1. pose proof (Equal_true o c) as H2.
    destruct (Equal c o), (Equal o c); try done.
    + destruct (proj1 H1 eq_refl) as [Hv Hf].
      symmetry. apply H2. by rewrite Hv, Hf.
    + destruct (proj1 H2 eq_refl) as [Hv Hf].
      apply H1. by rewrite Hv, Hf.
  - intros a b c [Hv1 Hf1]%Equal_true [Hv2 Hf2]%Equal_true.
    apply Equal_true. by rewrite Hv1, Hv2, Hf1, Hf2.
Qed.

(** X3: two configurations that are [Equal] parse alike: [Parse] may
    return the same results for both. *)
Theorem Equal_Parse_returns (c o : RulesConfig) r :
  Equal c o = true → Parse_returns c r ↔ Parse_returns o r.
Proof.
  intros [Hv Hf]%Equal_true. unfold Parse_returns, visits, Parse.
  rewrite Hv, Hf. done.
Qed.

(** *** The encoding of format versions *)

(** X4: [MarshalJSON] returns bytes and no error on a valid version, and
    no bytes and an error on any other; it succeeds exactly where
    [IsValid] holds. *)
Theorem MarshalJSON_IsValid (v : RuleFormatVersion) :
  (IsValid v = true → ∃ data, MarshalJSON v = (Some data, None)) ∧
  (IsValid v = false → ∃ e, MarshalJSON v = (None, Some e)).
Proof.
  unfold IsValid, MarshalJSON. repeat case_decide; split; intros; eauto; done.
Qed.

Lemma UnmarshalJSON_valid (v : RuleFormatVersion) (data : bytes) :
  (UnmarshalJSON v data).2 = None → IsValid (UnmarshalJSON v data).1 = true.
Proof.
  unfold UnmarshalJSON.
  destruct (json_Unmarshal_string data EmptyString) as [s|e]; [|done].
  repeat case_decide; done.
Qed.

(** X5: after [UnmarshalJSON] the version is valid when no error is
    returned, and is the one held before when an error is returned. *)
Theorem UnmarshalJSON_valid_or_unchanged (v : RuleFormatVersion)
    (data : bytes) :
  ((UnmarshalJSON v data).2 = None → IsValid (UnmarshalJSON v data).1 = true) ∧
  ((UnmarshalJSON v data).2 ≠ None → (UnmarshalJSON v data).1 = v).
Proof.
  split; [apply UnmarshalJSON_valid|].
  destruct (UnmarshalJSON v data).2 as [e|] eqn:He; [|done].
  intros _. by apply (UnmarshalJSON_error v data e).
Qed.

(** X6: what [MarshalJSON] writes for a valid version is read back by
    [UnmarshalJSON] as that version, when the JSON layer reads back the
    two strings it writes. *)
Theorem MarshalJSON_then_UnmarshalJSON (v v0 : RuleFormatVersion) :
  IsValid v = true →
  json_Unmarshal_string (json_Marshal_string "1") EmptyString = Ok "1" →
  json_Unmarshal_string (json_Marshal_string "2") EmptyString = Ok "2" →
  ∃ data, MarshalJSON v = (Some data, None) ∧
          UnmarshalJSON v0 data = (v, None).
Proof.
  unfold IsValid, MarshalJSON, UnmarshalJSON. intros Hv H1 H2.
  repeat case_decide; try done; subst; eexists; (split; [done|]).
  - by rewrite H1.
  - by rewrite H2.
Qed.

(** *** The decoding of configurations *)

Lemma IsValid_cases (v : RuleFormatVersion) :
  IsValid v = true → v = RuleFormatV1 ∨ v = RuleFormatV2.
Proof. unfold IsValid. repeat case_decide; auto; done. Qed.

Lemma decode_members_saved ms compat e :
  (decode_members ms compat (Some e)).2 ≠ None.
Proof.
  revert compat. induction ms as [|[key raw] rest IH]; intros compat; simpl;
    [done|].
  destruct (json_key_matches "rules_files" key).
  { destruct (json_Unmarshal_map raw _); apply IH. }
  destruct (json_key_matches "rule_format_version" key).
  { destruct (UnmarshalJSON _ raw) as [v [e'|]]; [done|apply IH]. }
  destruct (json_key_matches "alertmanager_config" key).
  { destruct (json_Unmarshal_string raw _); apply IH. }
  apply IH.
Qed.

Lemma decode_members_valid ms compat saved :
  (decode_members ms compat saved).2 = None →
  IsValid (compat_RuleFormatVersion compat) = true →
  IsValid (compat_RuleFormatVersion (decode_members ms compat saved).1) = true.
Proof.
  revert compat saved.
  induction ms as [|[key raw] rest IH]; intros compat saved; simpl; [done|].
  destruct (json_key_matches "rules_files" key).
  { destruct (json_Unmarshal_map raw _).
    - intros Hnone Hvalid. by apply IH.
    - destruct saved; intros H; by apply decode_members_saved in H. }
  destruct (json_key_matches "rule_format_version" key).
  { pose proof (UnmarshalJSON_valid (compat_RuleFormatVersion compat) raw)
      as Hvalid.
    destruct (UnmarshalJSON _ raw) as [v [e'|]]; [done|].
    intros Hnone _. apply IH; [done|]. by apply Hvalid. }
  destruct (json_key_matches "alertmanager_config" key).
  { destruct (json_Unmarshal_string raw _).
    - intros Hnone Hvalid. by apply IH.
    - destruct saved; intros H; by apply decode_members_saved in H. }
  intros Hnone Hvalid. by apply IH.
Qed.

(** X7: a configuration that [UnmarshalJSON] decodes without error has a
    valid format version, so that [Parse] hands it to one of the two
    adapters. *)
Theorem Config_UnmarshalJSON_valid (c c' : Config) (data : bytes) :
  Config_UnmarshalJSON c data = (c', None) →
  IsValid (FormatVersion (Config_RulesConfig c')) = true ∧
  ∀ order, Parse order (Config_RulesConfig c') = parseV1 order ∨
           Parse order (Config_RulesConfig c') = parseV2 order.
Proof.
  unfold Config_UnmarshalJSON, json_Unmarshal_configCompat.
  destruct (json_object data) as [ms|e]; [|done].
  set (zero := {| compat_RulesFiles := None; compat_RuleFormatVersion := 0;
                  compat_AlertmanagerConfig := EmptyString |}).
  pose proof (decode_members_valid ms zero None) as Hvalid.
  destruct (decode_members ms zero None) as [compat [e|]]; [done|].
  intros [= <-]. simpl in *. specialize (Hvalid eq_refl eq_refl).
  split; [done|]. intros order. unfold Parse. simpl.
  unfold IsValid in Hvalid. repeat case_decide; auto; done.
Qed.

Lemma UnmarshalJSON_rejects (v : RuleFormatVersion) (raw : bytes) :
  json_Unmarshal_string raw EmptyString ≠ Ok "1" →
  json_Unmarshal_string raw EmptyString ≠ Ok "2" →
  (UnmarshalJSON v raw).2 ≠ None.
Proof.
  unfold UnmarshalJSON. intros H1 H2.
  destruct (json_Unmarshal_string raw EmptyString) as [s|e]; [|done].
  repeat case_decide; subst; done.
Qed.

Lemma decode_members_bad_version ms compat saved key raw :
  (key, raw) ∈ ms →
  json_key_matches "rules_files" key = false →
  json_key_matches "rule_format_version" key = true →
  json_Unmarshal_string raw EmptyString ≠ Ok "1" →
  json_Unmarshal_string raw EmptyString ≠ Ok "2" →
  (decode_members ms compat saved).2 ≠ None.
Proof.
  intros Hin Hf Hv H1 H2. revert compat saved.
  induction ms as [|[key' raw'] rest IH]; intros compat saved;
    [by apply elem_of_nil in Hin|].
  apply elem_of_cons in Hin as [[= <- <-]|Hin].
  - simpl. rewrite Hf, Hv.
    pose proof (UnmarshalJSON_rejects (compat_RuleFormatVersion compat) raw
                  H1 H2) as Hrej.
    by destruct (UnmarshalJSON _ raw) as [v [e|]].
  - specialize (IH Hin). simpl.
    destruct (json_key_matches "rules_files" key').
    { destruct (json_Unmarshal_map raw' _); apply IH. }
    destruct (json_key_matches "rule_format_version" key').
    { destruct (UnmarshalJSON _ raw') as [v [e'|]]; [done|apply IH]. }
    destruct (json_key_matches "alertmanager_config" key').
    { destruct (json_Unmarshal_string raw' _); apply IH. }
    apply IH.
Qed.

(** X8: a record with a member for the field [rule_format_version] whose
    token reads neither as ["1"] nor as ["2"] is refused as a whole,
    whatever its other members, and the configuration is left as it
    was. *)
Theorem Config_UnmarshalJSON_bad_version (c : Config) (data : bytes)
    ms key raw :
  json_object data = Ok ms →
  (key, raw) ∈ ms →
  json_key_matches "rules_files" key = false →
  json_key_matches "rule_format_version" key = true →
  json_Unmarshal_string raw EmptyString ≠ Ok "1" →
  json_Unmarshal_string raw EmptyString ≠ Ok "2" →
  ∃ e, Config_UnmarshalJSON c data = (c, Some e).
Proof.
  intros Hobj Hin Hf Hv H1 H2.
  unfold Config_UnmarshalJSON, json_Unmarshal_configCompat. rewrite Hobj.
  set (zero := {| compat_RulesFiles := None; compat_RuleFormatVersion := 0;
                  compat_AlertmanagerConfig := EmptyString |}).
  pose proof (decode_members_bad_version ms zero None key raw Hin Hf Hv H1 H2)
    as Hbad.
  destruct (decode_members ms zero None) as [compat [e|]]; [eauto|done].
Qed.

Lemma decode_members_files ms compat saved :
  (∀ key raw, (key, raw) ∈ ms → json_key_matches "rules_files" key = false) →
  compat_RulesFiles (decode_members ms compat saved).1 =
    compat_RulesFiles compat.
Proof.
  revert compat saved.
  induction ms as [|[key raw] rest IH]; intros compat saved Hno; [done|].
  assert (Hrest : ∀ key raw, (key, raw) ∈ rest →
            json_key_matches "rules_files" key = false).
  { intros k r Hin. apply (Hno k r). by right. }
  simpl. rewrite (Hno key raw) by left.
  destruct (json_key_matches "rule_format_version" key).
  { destruct (UnmarshalJSON _ raw) as [v [e|]]; [done|]. by rewrite IH. }
  destruct (json_key_matches "alertmanager_config" key).
  { destruct (json_Unmarshal_string raw _); by rewrite IH. }
  by rewrite IH.
Qed.

(** X9: a record none of whose members selects the field [rules_files]
    decodes, when it decodes, to a configuration whose file mapping is
    nil, and a view of this configuration has no rules view. *)
Theorem Config_UnmarshalJSON_no_rules_files (c c' : Config) (data : bytes)
    ms :
  json_object data = Ok ms →
  (∀ key raw, (key, raw) ∈ ms → json_key_matches "rules_files" key = false) →
  Config_UnmarshalJSON c data = (c', None) →
  Files (Config_RulesConfig c') = None ∧
  ∀ id t, GetVersionedRulesConfig (mkView id c' t) = None.
Proof.
  intros Hobj Hno.
  unfold Config_UnmarshalJSON, json_Unmarshal_configCompat. rewrite Hobj.
  set (zero := {| compat_RulesFiles := None; compat_RuleFormatVersion := 0;
                  compat_AlertmanagerConfig := EmptyString |}).
  pose proof (decode_members_files ms zero None Hno) as Hfiles.
  destruct (decode_members ms zero None) as [compat [e|]]; [done|].
  intros [= <-]. simpl in *. split; [done|].
  intros id t. unfold GetVersionedRulesConfig. simpl. by rewrite Hfiles.
Qed.

(** *** The encoding of configurations *)

(** X10: [MarshalJSON] of a configuration returns bytes and no error when
    the format version is valid; otherwise it returns no bytes and the
    error of [MarshalJSON] of the version, wrapped by the JSON layer. *)
Theorem Config_MarshalJSON_IsValid
    (json_Marshal_map : option (gmap string string) → bytes)
    (json_Marshal_object : list (string * bytes) → bytes)
    (json_MarshalerError : err → E) (c : Config) :
  (IsValid (FormatVersion (Config_RulesConfig c)) = true →
     ∃ data,
       Config_MarshalJSON json_Marshal_map json_Marshal_object
         json_MarshalerError c = (Some data, None)) ∧
  (IsValid (FormatVersion (Config_RulesConfig c)) = false →
     Config_MarshalJSON json_Marshal_map json_Marshal_object
       json_MarshalerError c =
       (None, Some (Foreign (json_MarshalerError (Errorf
          ("unknown rule format version "
             +:+ pretty (FormatVersion (Config_RulesConfig c)))))))).
Proof.
  unfold Config_MarshalJSON, json_Marshal_configCompat, MarshalJSON, IsValid.
  simpl. repeat case_decide; split; intros; eauto; done.
Qed.

(** X11: decoding what [MarshalJSON] wrote for a configuration with a
    valid format version gives the configuration back, when the JSON
    layer reads back what it wrote: the object and its three keys, the
    file mapping, the version token and the Alertmanager text. *)
Theorem Config_MarshalJSON_then_UnmarshalJSON
    (json_Marshal_map : option (gmap string string) → bytes)
    (json_Marshal_object : list (string * bytes) → bytes)
    (json_MarshalerError : err → E) (c c0 : Config) :
  IsValid (FormatVersion (Config_RulesConfig c)) = true →
  (∀ tag key,
     tag ∈ ["rules_files"; "rule_format_version"; "alertmanager_config"] →
     key ∈ ["rules_files"; "rule_format_version"; "alertmanager_config"] →
     json_key_matches tag key = bool_decide (tag = key)) →
  (∀ version,
     MarshalJSON (FormatVersion (Config_RulesConfig c)) = (Some version, None) →
     json_object (json_Marshal_object
                    (compat_members json_Marshal_map (compat_of c) version)) =
       Ok (compat_members json_Marshal_map (compat_of c) version)) →
  json_Unmarshal_map (json_Marshal_map (Files (Config_RulesConfig c))) None =
    Ok (Files (Config_RulesConfig c)) →
  json_Unmarshal_string (json_Marshal_string "1") EmptyString = Ok "1" →
  json_Unmarshal_string (json_Marshal_string "2") EmptyString = Ok "2" →
  json_Unmarshal_string (json_Marshal_string (AlertmanagerConfig c))
    EmptyString = Ok (AlertmanagerConfig c) →
  ∃ data,
    Config_MarshalJSON json_Marshal_map json_Marshal_object
      json_MarshalerError c = (Some data, None) ∧
    Config_UnmarshalJSON c0 data = (c, None).
Proof.
  intros Hvalid Hkeys Hobj Hmap H1 H2 Ham.
  assert (Hk : ∀ tag key,
            tag ∈ ["rules_files"; "rule_format_version"; "alertmanager_config"] →
            key ∈ ["rules_files"; "rule_format_version"; "alertmanager_config"] →
            json_key_matches tag key = bool_decide (tag = key)) by done.
  assert (∃ version,
            MarshalJSON (FormatVersion (Config_RulesConfig c)) =
              (Some version, None) ∧
            UnmarshalJSON 0 version =
              (FormatVersion (Config_RulesConfig c), None))
    as (version & Hm & Hu).
  { destruct (IsValid_cases _ Hvalid) as [Hv|Hv];
      unfold MarshalJSON, UnmarshalJSON; rewrite Hv.
    - exists (json_Marshal_string "1"). by rewrite H1.
    - exists (json_Marshal_string "2"). by rewrite H2. }
  exists (json_Marshal_object
            (compat_members json_Marshal_map (compat_of c) version)).
  unfold Config_MarshalJSON, json_Marshal_configCompat. simpl. rewrite Hm.
  split; [done|].
  unfold Config_UnmarshalJSON, json_Unmarshal_configCompat.
  rewrite (Hobj version Hm). unfold compat_members, decode_members. simpl.
  rewrite !Hk by (repeat constructor). simpl.
  rewrite Hmap. simpl. rewrite Hu. simpl. rewrite Ham.
  by destruct c as [[v files] am].
Qed.

(** *** The results of the parsers *)

Lemma visits_NoDup {T} (m : option (gmap string T)) order :
  visits m order → NoDup (order.*1).
Proof. unfold visits. intros ->. apply NoDup_fst_map_to_list. Qed.

Lemma parseV2_files_all_clean order groups :
  (∀ fn content, (fn, content) ∈ order → file_parses_V2 content) →
  ∃ groups', parseV2_files order groups = Done groups'.
Proof.
  intros Hclean.
  destruct (parseV2_files_clean_prefix order [] groups Hclean) as [groups' Heq].
  rewrite app_nil_r in Heq. by exists groups'.
Qed.

Lemma parseV2_files_Done_clean order groups groups' :
  parseV2_files order groups = Done groups' →
  ∀ fn content, (fn, content) ∈ order → file_parses_V2 content.
Proof.
  intros (Hall & _)%parseV2_files_spec fn content Hin.
  destruct (Hall fn content Hin) as [Herrs Hgroups].
  split; [done|]. intros rg rl Hrg Hrl.
  destruct (Hgroups rg Hrg) as [rls Hrls].
  by apply (parseV2_rules_Done_inv _ _ _ Hrls).
Qed.

(** X12: for a 2.x configuration, [Parse] returns a mapping exactly when
    every file parses, groups and expressions; whether it succeeds does
    not depend on the order of the visit. *)
Theorem Parse_V2_succeeds_iff (c : RulesConfig) order :
  FormatVersion c = RuleFormatV2 →
  visits (Files c) order →
  (∃ groups, Parse order c = (Some groups, None)) ↔
  (∀ fn content, index (Files c) fn = Some content → file_parses_V2 content).
Proof.
  intros Hver Hv. rewrite (Parse_V2 c order Hver). unfold parseV2. split.
  - intros [groups Hd%returns_Done] fn content Hin.
    apply (parseV2_files_Done_clean _ _ _ Hd fn).
    by apply (visits_elem_of (Files c) order).
  - intros Hclean.
    destruct (parseV2_files_all_clean order ∅) as [groups ->]; [|by eexists].
    intros fn content Hin. apply (Hclean fn).
    by apply (visits_elem_of (Files c) order).
Qed.

Lemma parseV1_files_spec order result result' :
  NoDup (order.*1) →
  parseV1_files order result = Done result' →
  (∀ fn content, (fn, content) ∈ order →
     ∃ stmts ra, legacy_ParseStmts content = Ok stmts ∧
                 parseV1_stmts stmts [] = Done ra ∧
                 result' !! fn = Some ra) ∧
  (∀ fn, fn ∉ order.*1 → result' !! fn = result !! fn).
Proof.
  revert result. induction order as [|[fn content] rest IH]; intros result;
    simpl.
  - intros _ [= <-]. split; [|done].
    intros fn content Hin. by apply elem_of_nil in Hin.
  - rewrite NoDup_cons. intros [Hfn Hnd].
    destruct (legacy_ParseStmts content) as [stmts|e] eqn:Hp; [|done].
    destruct (parseV1_stmts stmts []) as [ra|err'] eqn:Hs; simpl; [|done].
    intros (Hall & Hout)%IH; [|done]. split.
    + intros fn' content' [[= -> ->]|Hin]%elem_of_cons; [|by apply Hall].
      exists stmts, ra. split_and!; [done..|].
      rewrite (Hout fn Hfn). apply lookup_insert_eq.
    + intros fn' [Hne Hnotin]%not_elem_of_cons.
      rewrite (Hout fn' Hnotin). by apply lookup_insert_ne.
Qed.

Lemma parseV1_files_all_clean order result :
  (∀ fn content, (fn, content) ∈ order → file_parses_V1 content) →
  ∃ result', parseV1_files order result = Done result'.
Proof.
  intros Hclean.
  destruct (parseV1_files_clean_prefix order [] result Hclean) as [result' Heq].
  rewrite app_nil_r in Heq. by exists result'.
Qed.

(** X13: for a 1.x configuration, [Parse] returns a mapping exactly when
    every file parses, statements and expressions; whether it succeeds
    does not depend on the order of the visit. *)
Theorem Parse_V1_succeeds_iff (c : RulesConfig) order :
  FormatVersion c = RuleFormatV1 →
  visits (Files c) order →
  (∃ result, Parse order c = (Some result, None)) ↔
  (∀ fn content, index (Files c) fn = Some content → file_parses_V1 content).
Proof.
  intros Hver Hv. rewrite (Parse_V1 c order Hver). unfold parseV1. split.
  - intros [result Hd%returns_Done] fn content Hin.
    apply parseV1_files_spec in Hd as [Hall _]; [|by apply (visits_NoDup (Files c))].
    destruct (Hall fn content) as (stmts & ra & Hp & Hs & _).
    { by apply (visits_elem_of (Files c) order). }
    exists stmts. split; [done|]. by apply (parseV1_stmts_Done_inv _ _ _ Hs).
  - intros Hclean.
    destruct (parseV1_files_all_clean order ∅) as [result ->]; [|by eexists].
    intros fn content Hin. apply (Hclean fn).
    by apply (visits_elem_of (Files c) order).
Qed.

Lemma Parse_V1_lookup (c : RulesConfig) order result :
  FormatVersion c = RuleFormatV1 →
  visits (Files c) order →
  Parse order c = (Some result, None) →
  (∀ fn content, index (Files c) fn = Some content →
     ∃ stmts ra, legacy_ParseStmts content = Ok stmts ∧
                 parseV1_stmts stmts [] = Done ra ∧
                 result !! fn = Some ra) ∧
  (∀ fn, index (Files c) fn = None → result !! fn = None).
Proof.
  intros Hver Hv. rewrite (Parse_V1 c order Hver). unfold parseV1.
  intros Hd%returns_Done.
  apply parseV1_files_spec in Hd as [Hall Hout];
    [|by apply (visits_NoDup (Files c))].
  split.
  - intros fn content Hin. apply Hall.
    by apply (visits_elem_of (Files c) order).
  - intros fn Hnone. rewrite Hout; [apply lookup_empty|].
    intros (fc & -> & Hin)%list_elem_of_fmap. destruct fc as [fn content].
    apply (visits_elem_of (Files c) order _ _ Hv) in Hin. simpl in Hnone.
    congruence.
Qed.

(** X14: the result of a successful 1.x parse has one entry per file,
    under the name of the file, holding the rules made of the statements
    of that file, and no other entry. *)
Theorem Parse_V1_result (c : RulesConfig) order result :
  FormatVersion c = RuleFormatV1 →
  visits (Files c) order →
  Parse order c = (Some result, None) →
  (∀ fn content, index (Files c) fn = Some content →
     ∃ stmts ra, legacy_ParseStmts content = Ok stmts ∧
                 parseV1_stmts stmts [] = Done ra ∧
                 result !! fn = Some ra) ∧
  (∀ fn, index (Files c) fn = None → result !! fn = None) ∧
  size result = len (Files c).
Proof.
  intros Hver Hv Hparse.
  destruct (Parse_V1_lookup c order result Hver Hv Hparse) as [Hin Hout].
  split_and!; [done..|].
  unfold len. rewrite <- !size_dom. f_equal. apply set_eq. intros fn.
  rewrite !elem_of_dom. unfold index in *.
  destruct (entries (Files c) !! fn) as [content|] eqn:Hfn.
  - destruct (Hin fn content Hfn) as (? & ra & _ & _ & ->). split; eauto.
  - rewrite (Hout fn Hfn). done.
Qed.

(** X15: a successful 1.x parse returns the same mapping for every order
    of the visit. *)
Theorem Parse_V1_any_order (c : RulesConfig) order1 order2 result :
  FormatVersion c = RuleFormatV1 →
  visits (Files c) order1 → visits (Files c) order2 →
  Parse order1 c = (Some result, None) →
  Parse order2 c = (Some result, None).
Proof.
  intros Hver Hv1 Hv2 Hparse.
  destruct (Parse_V1_lookup c order1 result Hver Hv1 Hparse) as [Hin1 Hout1].
  assert (∃ result2, Parse order2 c = (Some result2, None)) as [result2 Hparse2].
  { rewrite (Parse_V1 c order2 Hver). unfold parseV1.
    destruct (parseV1_files_all_clean order2 ∅) as [result2 ->]; [|by eexists].
    intros fn content Hin.
    apply (visits_elem_of (Files c) order2 _ _ Hv2) in Hin.
    destruct (Hin1 fn content Hin) as (stmts & ra & Hp & Hs & _).
    exists stmts. split; [done|]. by apply (parseV1_stmts_Done_inv _ _ _ Hs). }
  destruct (Parse_V1_lookup c order2 result2 Hver Hv2 Hparse2) as [Hin2 Hout2].
  rewrite Hparse2. do 2 f_equal. apply map_eq. intros fn.
  destruct (index (Files c) fn) as [content|] eqn:Hfn.
  - destruct (Hin1 fn content Hfn) as (stmts & ra & Hp & Hs & ->).
    destruct (Hin2 fn content Hfn) as (stmts2 & ra2 & Hp2 & Hs2 & ->).
    congruence.
  - by rewrite (Hout1 fn Hfn), (Hout2 fn Hfn).
Qed.

Lemma parseV2_rules_cons rl rest rls :
  parseV2_rules (rl :: rest) rls =
    match promql_ParseExpr (Expr rl) with
    | Fail e => Abort (Foreign e)
    | Ok expr => parseV2_rules rest (rls ++ [parseV2_rule rl expr])
    end.
Proof.
  simpl. unfold parseV2_rule.
  destruct (promql_ParseExpr (Expr rl)); [|done]. by case_decide.
Qed.

Lemma parseV2_rules_app rs rls out :
  parseV2_rules rs rls = Done out →
  ∃ new, out = rls ++ new ∧
    Forall2 (λ rl r, ∃ expr, promql_ParseExpr (Expr rl) = Ok expr ∧
                             r = parseV2_rule rl expr) rs new.
Proof.
  revert rls. induction rs as [|rl rest IH]; intros rls.
  - simpl. intros [= <-]. exists []. by rewrite app_nil_r.
  - rewrite parseV2_rules_cons.
    destruct (promql_ParseExpr (Expr rl)) as [expr|e] eqn:Hp; [|done].
    intros (new & -> & Hall)%IH. exists (parseV2_rule rl expr :: new).
    split; [by rewrite <- app_assoc|]. constructor; eauto.
Qed.

(** X16: the rules of a group are converted one for one and in the order
    of the file: a rule with an alert name becomes an alerting rule of
    that name, any other rule a recording rule under its record name. *)
Theorem parseV2_rules_in_order (rs : list RuleNode) rls :
  parseV2_rules rs [] = Done rls →
  length rls = length rs ∧
  Forall2 (λ rl r, ∃ expr, promql_ParseExpr (Expr rl) = Ok expr ∧
             r = if decide (Alert rl ≠ EmptyString)
                 then AlertingRule (Alert rl) expr (For rl)
                        (labels_FromMap (Labels rl))
                        (labels_FromMap (Annotations rl)) true
                 else RecordingRule (Record_ rl) expr
                        (labels_FromMap (Labels rl))) rs rls.
Proof.
  intros (new & -> & Hall)%parseV2_rules_app. simpl.
  split; [symmetry; by eapply Forall2_length|done].
Qed.

Lemma parseV1_stmts_app stmts ra out :
  parseV1_stmts stmts ra = Done out →
  ∃ new, out = ra ++ new ∧
    Forall2 (λ stmt r, ∃ x expr, stmt_expr stmt = Some x ∧
               promql_ParseExpr (LExpr_String x) = Ok expr ∧
               parseV1_rule stmt expr = Some r) stmts new.
Proof.
  revert ra. induction stmts as [|stmt rest IH]; intros ra; simpl.
  - intros [= <-]. exists []. by rewrite app_nil_r.
  - destruct stmt as [name x duration lbls anns|name x lbls|]; [| |done].
    + destruct (promql_ParseExpr (LExpr_String x)) as [expr|e] eqn:Hp;
        [|done].
      intros (new & -> & Hall)%IH. eexists (_ :: new).
      split; [by rewrite <- app_assoc|].
      constructor; [|done]. by exists x, expr.
    + destruct (promql_ParseExpr (LExpr_String x)) as [expr|e] eqn:Hp;
        [|done].
      intros (new & -> & Hall)%IH. eexists (_ :: new).
      split; [by rewrite <- app_assoc|].
      constructor; [|done]. by exists x, expr.
Qed.

(** X17: the statements of a legacy file are converted one for one and in
    the order of the file: an alert statement becomes an alerting rule
    with its name, duration, labels and annotations, a record statement a
    recording rule with its name and labels, each over the expression
    parsed again from its text. *)
Theorem parseV1_stmts_in_order (stmts : list (Statement LExpr Lbls)) ra :
  parseV1_stmts stmts [] = Done ra →
  length ra = length stmts ∧
  Forall2 (λ stmt r, ∃ x expr, stmt_expr stmt = Some x ∧
             promql_ParseExpr (LExpr_String x) = Ok expr ∧
             r = match stmt with
                 | AlertStmt name _ duration lbls annotations =>
                     AlertingRule name expr duration lbls annotations true
                 | RecordStmt name _ lbls => RecordingRule name expr lbls
                 | OtherStmt => r
                 end) stmts ra.
Proof.
  intros (new & -> & Hall)%parseV1_stmts_app. simpl.
  split; [symmetry; by eapply Forall2_length|].
  eapply Forall2_impl; [exact Hall|].
  intros stmt r (x & expr & Hx & Hp & Hr). exists x, expr.
  split_and!; [done..|]. destruct stmt; simpl in Hr; by simplify_eq.
Qed.

Lemma parseV1_stmts_clean_prefix pre rest ra :
  (∀ stmt, stmt ∈ pre →
     ∃ x expr, stmt_expr stmt = Some x ∧
               promql_ParseExpr (LExpr_String x) = Ok expr) →
  ∃ ra', parseV1_stmts (pre ++ rest) ra = parseV1_stmts rest ra'.
Proof.
  revert ra. induction pre as [|stmt pre IH]; intros ra Hok; simpl; [eauto|].
  destruct (Hok stmt) as (x & expr & Hx & Hp); [by left|].
  assert (Hpre : ∀ stmt, stmt ∈ pre →
            ∃ x expr, stmt_expr stmt = Some x ∧
                      promql_ParseExpr (LExpr_String x) = Ok expr).
  { intros stmt' Hin. apply Hok. by right. }
  destruct stmt; simpl in Hx; simplify_eq; rewrite Hp; by apply IH.
Qed.

(** X18: in a legacy file, a statement that is neither an alert nor a
    record statement, met after statements that convert, ends the parse
    with the error of the unknown statement type, which carries neither
    the file name nor the statement. *)
Theorem parseV1_unknown_statement (before after : list (string * string))
    (fn content : string) pre post :
  (∀ f c, (f, c) ∈ before → file_parses_V1 c) →
  legacy_ParseStmts content = Ok (pre ++ OtherStmt :: post) →
  (∀ stmt, stmt ∈ pre →
     ∃ x expr, stmt_expr stmt = Some x ∧
               promql_ParseExpr (LExpr_String x) = Ok expr) →
  parseV1 (before ++ (fn, content) :: after) =
    (None, Some (Errorf "ruler.GetRules: unknown statement type")).
Proof.
  intros Hclean Hp Hpre. unfold parseV1.
  destruct (parseV1_files_clean_prefix before ((fn, content) :: after) ∅
              Hclean) as [result' ->].
  simpl. rewrite Hp.
  destruct (parseV1_stmts_clean_prefix pre (OtherStmt :: post) [] Hpre)
    as [ra' ->].
  done.
Qed.

Lemma parseV1_files_Abort order result err :
  parseV1_files order result = Abort err →
  (∃ fn content e, (fn, content) ∈ order ∧
     legacy_ParseStmts content = Fail e ∧
     err = Errorf (error_parsing fn (Error e))) ∨
  (∃ fn content stmts stmt x e, (fn, content) ∈ order ∧
     legacy_ParseStmts content = Ok stmts ∧ stmt ∈ stmts ∧
     stmt_expr stmt = Some x ∧
     promql_ParseExpr (LExpr_String x) = Fail e ∧ err = Foreign e) ∨
  (∃ fn content stmts, (fn, content) ∈ order ∧
     legacy_ParseStmts content = Ok stmts ∧ OtherStmt ∈ stmts ∧
     err = Errorf "ruler.GetRules: unknown statement type").
Proof.
  revert result. induction order as [|[fn content] rest IH]; intros result;
    simpl; [done|].
  destruct (legacy_ParseStmts content) as [stmts|e] eqn:Hp.
  - destruct (parseV1_stmts stmts []) as [ra|err'] eqn:Hs; simpl.
    + intros [(fn' & content' & e & Hin & ? & ?)
             |[(fn' & content' & stmts' & stmt & x & e & Hin & ? & ? & ? & ? & ?)
              |(fn' & content' & stmts' & Hin & ? & ? & ?)]]%IH.
      * left. exists fn', content', e. split_and!; [by right|done..].
      * right. left. exists fn', content', stmts', stmt, x, e.
        split_and!; [by right|done..].
      * right. right. exists fn', content', stmts'.
        split_and!; [by right|done..].
    + intros [= <-].
      apply parseV1_stmts_Abort in Hs
        as [(stmt & x & e & ? & ? & ? & ?)|[? ?]].
      * right. left. exists fn, content, stmts, stmt, x, e.
        split_and!; [by left|done..].
      * right. right. exists fn, content, stmts.
        split_and!; [by left|done..].
  - intros [= <-]. left. exists fn, content, e.
    split_and!; [by left|done..].
Qed.

(** X19: every error of [Parse] comes with a nil mapping and is of one of
    six kinds: the unknown format version; for 2.x, the first error of
    the group parser on a file of the configuration, under the name of
    the file, or the error of the expression parser on a rule of a file,
    as it is; for 1.x, the error of the statement parser on a file, under
    the name of the file, the error of the expression parser on a
    statement of a file, as it is, or the unknown statement type. *)
Theorem Parse_error_kinds (c : RulesConfig) order r err :
  visits (Files c) order →
  Parse order c = (r, Some err) →
  r = None ∧
  ((FormatVersion c ≠ RuleFormatV1 ∧ FormatVersion c ≠ RuleFormatV2 ∧
    err = Errorf ("unknown rule format version "
                    +:+ pretty (FormatVersion c))) ∨
   (FormatVersion c = RuleFormatV2 ∧
    ∃ fn content e es, index (Files c) fn = Some content ∧
      (rulefmt_Parse content).2 = e :: es ∧
      err = Errorf ("error parsing " +:+ fn +:+ ": " +:+ Error e)) ∨
   (FormatVersion c = RuleFormatV2 ∧
    ∃ fn content rg rl e, index (Files c) fn = Some content ∧
      rg ∈ groups_of content ∧ rl ∈ Rules rg ∧
      promql_ParseExpr (Expr rl) = Fail e ∧ err = Foreign e) ∨
   (FormatVersion c = RuleFormatV1 ∧
    ∃ fn content e, index (Files c) fn = Some content ∧
      legacy_ParseStmts content = Fail e ∧
      err = Errorf ("error parsing " +:+ fn +:+ ": " +:+ Error e)) ∨
   (FormatVersion c = RuleFormatV1 ∧
    ∃ fn content stmts stmt x e, index (Files c) fn = Some content ∧
      legacy_ParseStmts content = Ok stmts ∧ stmt ∈ stmts ∧
      stmt_expr stmt = Some x ∧
      promql_ParseExpr (LExpr_String x) = Fail e ∧ err = Foreign e) ∨
   (FormatVersion c = RuleFormatV1 ∧
    ∃ fn content stmts, index (Files c) fn = Some content ∧
      legacy_ParseStmts content = Ok stmts ∧ OtherStmt ∈ stmts ∧
      err = Errorf "ruler.GetRules: unknown statement type")).
Proof.
  intros Hv. unfold Parse.
  assert (Hin : ∀ fn content, (fn, content) ∈ order →
            index (Files c) fn = Some content).
  { intros fn content. by apply (visits_elem_of (Files c) order). }
  destruct (decide (FormatVersion c = RuleFormatV1)) as [H1|H1];
    [|destruct (decide (FormatVersion c = RuleFormatV2)) as [H2|H2]].
  - unfold parseV1.
    destruct (parseV1_files order ∅) as [result|err'] eqn:Hf; [done|].
    simpl. intros [= <- <-]. split; [done|].
    apply parseV1_files_Abort in Hf
      as [(fn & content & e & ? & ? & ?)
         |[(fn & content & stmts & stmt & x & e & ? & ? & ? & ? & ? & ?)
          |(fn & content & stmts & ? & ? & ? & ?)]].
    + do 3 right. left. split; [done|]. exists fn, content, e. auto.
    + do 4 right. left. split; [done|].
      exists fn, content, stmts, stmt, x, e. split_and!; auto.
    + do 5 right. split; [done|]. exists fn, content, stmts. auto.
  - unfold parseV2.
    destruct (parseV2_files order ∅) as [groups|err'] eqn:Hf; [done|].
    simpl. intros [= <- <-]. split; [done|].
    apply parseV2_files_Abort in Hf
      as [(fn & content & e & es & ? & ? & ?)
         |(fn & content & rg & rl & e & ? & ? & ? & ? & ? & ?)].
    + right. left. split; [done|]. exists fn, content, e, es. auto.
    + do 2 right. left. split; [done|].
      exists fn, content, rg, rl, e. split_and!; auto.
  - intros [= <- <-]. split; [done|]. left. done.
Qed.

(** *** Deletion *)

(** X20: the rules view of a view reports deleted exactly when the
    deletion time of the view is not the zero time. *)
Theorem GetVersionedRulesConfig_IsDeleted (v : View) vr :
  GetVersionedRulesConfig v = Some vr →
  IsDeleted vr = true ↔ View_DeletedAt v ≠ 0.
Proof.
  unfold GetVersionedRulesConfig, IsDeleted.
  destruct (Files (Config_RulesConfig (View_Config v))); [|done].
  intros [= <-]. simpl. rewrite negb_true_iff, Z.eqb_neq. done.
Qed.

(** *** More on the two decoders and the 2.x parser *)

Lemma decode_members_alertmanager ms compat saved :
  (∀ key raw, (key, raw) ∈ ms →
     json_key_matches "alertmanager_config" key = false) →
  compat_AlertmanagerConfig (decode_members ms compat saved).1 =
    compat_AlertmanagerConfig compat.
Proof.
  revert compat saved.
  induction ms as [|[key raw] rest IH]; intros compat saved Hno; [done|].
  assert (Hrest : ∀ key raw, (key, raw) ∈ rest →
            json_key_matches "alertmanager_config" key = false).
  { intros k r Hin. apply (Hno k r). by right. }
  simpl. rewrite (Hno key raw) by left.
  destruct (json_key_matches "rules_files" key).
  { destruct (json_Unmarshal_map raw _); by rewrite IH. }
  destruct (json_key_matches "rule_format_version" key).
  { destruct (UnmarshalJSON _ raw) as [v [e|]]; [done|]. by rewrite IH. }
  by rewrite IH.
Qed.

(** X21: [UnmarshalJSON] replaces the configuration as a whole: whatever
    the configuration held before, after a successful decoding every
    field that no member of the record selects is at its zero value: a
    nil file mapping, the version V1, an empty Alertmanager text. *)
Theorem Config_UnmarshalJSON_missing_fields (c c' : Config) (data : bytes)
    ms :
  json_object data = Ok ms →
  Config_UnmarshalJSON c data = (c', None) →
  ((∀ key raw, (key, raw) ∈ ms →
      json_key_matches "rules_files" key = false) →
   Files (Config_RulesConfig c') = None) ∧
  ((∀ key raw, (key, raw) ∈ ms →
      json_key_matches "rule_format_version" key = false) →
   FormatVersion (Config_RulesConfig c') = RuleFormatV1) ∧
  ((∀ key raw, (key, raw) ∈ ms →
      json_key_matches "alertmanager_config" key = false) →
   AlertmanagerConfig c' = EmptyString).
Proof.
  intros Hobj.
  unfold Config_UnmarshalJSON, json_Unmarshal_configCompat. rewrite Hobj.
  set (zero := {| compat_RulesFiles := None; compat_RuleFormatVersion := 0;
                  compat_AlertmanagerConfig := EmptyString |}).
  pose proof (decode_members_files ms zero None) as Hfiles.
  pose proof (decode_members_version ms zero None) as Hversion.
  pose proof (decode_members_alertmanager ms zero None) as Ham.
  destruct (decode_members ms zero None) as [compat [e|]]; [done|].
  intros [= <-]. simpl in *. split_and!; auto.
Qed.

(** X22: when the groups that make the same key hold the same rules, a
    successful 2.x parse returns the same mapping for every order of the
    visit. *)
Theorem Parse_V2_any_order (c : RulesConfig) order1 order2 groups :
  FormatVersion c = RuleFormatV2 →
  visits (Files c) order1 → visits (Files c) order2 →
  (∀ fn1 content1 rg1 fn2 content2 rg2,
     index (Files c) fn1 = Some content1 → rg1 ∈ groups_of content1 →
     index (Files c) fn2 = Some content2 → rg2 ∈ groups_of content2 →
     group_key (Name rg1) fn1 = group_key (Name rg2) fn2 →
     Rules rg1 = Rules rg2) →
  Parse order1 c = (Some groups, None) →
  Parse order2 c = (Some groups, None).
Proof.
  intros Hver Hv1 Hv2 Hsame.
  rewrite (Parse_V2 c order1 Hver), (Parse_V2 c order2 Hver). unfold parseV2.
  intros Hd1%returns_Done.
  destruct (parseV2_files_all_clean order2 ∅) as [groups2 Hd2].
  { intros fn content Hin.
    apply (parseV2_files_Done_clean _ _ _ Hd1 fn).
    apply (visits_elem_of (Files c) order1 _ _ Hv1).
    by apply (visits_elem_of (Files c) order2 _ _ Hv2). }
  rewrite Hd2. simpl. do 2 f_equal.
  apply parseV2_files_spec in Hd1 as (_ & Hdom1 & Hval1).
  apply parseV2_files_spec in Hd2 as (_ & Hdom2 & Hval2).
  assert (Hsub : ∀ (o o' : list (string * string)) (m m' : rulemap),
    visits (Files c) o → visits (Files c) o' →
    (∀ key, is_Some (m' !! key) ↔
       is_Some ((∅ : rulemap) !! key) ∨
       ∃ fn content rg, (fn, content) ∈ o' ∧ rg ∈ groups_of content ∧
         key = group_key (Name rg) fn) →
    (∀ key rls, m !! key = Some rls →
       (∅ : rulemap) !! key = Some rls ∨
       ∃ fn content rg, (fn, content) ∈ o ∧ rg ∈ groups_of content ∧
         key = group_key (Name rg) fn ∧
         parseV2_rules (Rules rg) [] = Done rls) →
    (∀ key rls, m' !! key = Some rls →
       (∅ : rulemap) !! key = Some rls ∨
       ∃ fn content rg, (fn, content) ∈ o' ∧ rg ∈ groups_of content ∧
         key = group_key (Name rg) fn ∧
         parseV2_rules (Rules rg) [] = Done rls) →
    ∀ key rls, m !! key = Some rls → m' !! key = Some rls).
  { intros o o' m m' Ho Ho' Hdom' Hval Hval' key rls Hk.
    destruct (Hval key rls Hk) as [He|(fn & content & rg & Hin & Hrg & -> & Hrls)];
      [by rewrite lookup_empty in He|].
    apply (visits_elem_of (Files c) o _ _ Ho) in Hin.
    destruct (proj2 (Hdom' (group_key (Name rg) fn))) as [rls' Hk'].
    { right. exists fn, content, rg. split_and!; [|done..].
      by apply (visits_elem_of (Files c) o' _ _ Ho'). }
    rewrite Hk'. f_equal.
    destruct (Hval' _ _ Hk')
      as [He|(fn' & content' & rg' & Hin' & Hrg' & Hkey & Hrls')];
      [by rewrite lookup_empty in He|].
    apply (visits_elem_of (Files c) o' _ _ Ho') in Hin'.
    rewrite (Hsame fn content rg fn' content' rg' Hin Hrg Hin' Hrg' Hkey)
      in Hrls.
    congruence. }
  apply map_eq. intros key.
  destruct (groups !! key) as [rls|] eqn:Hk1.
  - exact (Hsub order1 order2 groups groups2 Hv1 Hv2 Hdom2 Hval1 Hval2
             key rls Hk1).
  - destruct (groups2 !! key) as [rls|] eqn:Hk2; [|done].
    pose proof (Hsub order2 order1 groups2 groups Hv2 Hv1 Hdom1 Hval2 Hval1
                  key rls Hk2).
    congruence.
Qed.

End Collaborators.

(** ** The properties on the sample collaborators *)

Ltac sample_NoDup := apply (bool_decide_unpack _); vm_compute; reflexivity.

Ltac sample_elem H :=
  repeat (apply elem_of_cons in H as [H|H]; [injection H as -> ->|]);
  [..|by apply elem_of_nil in H].

Lemma sample_visits_swap (v : RuleFormatVersion) (f1 f2 : string * string) :
  f1.1 ≠ f2.1 → visits (Files (Sample.config v [f1; f2])) [f2; f1].
Proof.
  intros Hne. apply visits_list_to_map; [|apply perm_swap].
  apply NoDup_cons. split; [|apply NoDup_singleton].
  by intros ?%list_elem_of_singleton.
Qed.

Lemma sample_visits_same (v : RuleFormatVersion)
    (files : list (string * string)) :
  NoDup (files.*1) → visits (Files (Sample.config v files)) files.
Proof. intros Hnd. by apply visits_list_to_map. Qed.

Lemma sample_group_parses (name : string) :
  @file_parses_V2 Sample.K ("group " +:+ name).
Proof.
  split; [done|]. intros rg rl Hrg Hrl.
  apply list_elem_of_singleton in Hrg as ->.
  apply list_elem_of_singleton in Hrl as ->. by eexists.
Qed.

Lemma sample_visits_good_first :
  visits (Files Sample.broken_and_good) Sample.good_first.
Proof. by apply sample_visits_swap. Qed.

Lemma sample_visits_same_group_name :
  visits (Files Sample.same_group_name) Sample.same_group_name_files.
Proof. apply sample_visits_same. sample_NoDup. Qed.

Lemma Equal_same_version_same_pairs_witness :
  visits (Files Sample.same_group_name) Sample.same_group_name_swapped ∧
  (Equal_visit Sample.same_group_name_swapped
     Sample.same_group_name Sample.same_group_name = true ↔
   FormatVersion Sample.same_group_name =
     FormatVersion Sample.same_group_name ∧
   ∀ name content,
     index (Files Sample.same_group_name) name = Some content ↔
     index (Files Sample.same_group_name) name = Some content).
Proof.
  assert (Hv : visits (Files Sample.same_group_name)
                 Sample.same_group_name_swapped)
    by (by apply sample_visits_swap).
  split; [exact Hv|].
  exact (Equal_same_version_same_pairs Sample.same_group_name
           Sample.same_group_name Sample.same_group_name_swapped Hv).
Defined.



Lemma Config_UnmarshalJSON_no_version_witness :
  ∃ c', @Config_UnmarshalJSON Sample.K Sample.old_config Sample.legacy_blob =
          (c', None) ∧
        FormatVersion (Config_RulesConfig c') = RuleFormatV1.
Proof.
  apply (@Config_UnmarshalJSON_no_version Sample.K _ Sample.legacy_blob
           [("rules_files", "{}");
            ("alertmanager_config", Sample.quoted "route")]).
  - reflexivity.
  - intros key raw Hin. sample_elem Hin; reflexivity.
  - intros key raw m Hin Hkey. sample_elem Hin; [by eexists|done].
  - intros key raw s Hin Hkey. sample_elem Hin; [done|by eexists].
Defined.

Lemma Parse_unknown_version_witness :
  @Parse Sample.K [("a.yml", "group g")] Sample.version_seven =
  (None, Some (Errorf "unknown rule format version 7")).
Proof.
  apply (@Parse_unknown_version Sample.K Sample.version_seven);
    simpl; unfold RuleFormatV1, RuleFormatV2; lia.
Defined.

Lemma Parse_no_files_witness :
  @Parse Sample.K [] (mkRulesConfig RuleFormatV1 None) = (Some ∅, None) ∧
  @Parse Sample.K [] (mkRulesConfig RuleFormatV2 (Some ∅)) = (Some ∅, None).
Proof.
  split.
  - apply (@Parse_no_files Sample.K (mkRulesConfig RuleFormatV1 None) []);
      [by left|by left|]. unfold visits. simpl. by rewrite map_to_list_empty.
  - apply (@Parse_no_files Sample.K (mkRulesConfig RuleFormatV2 (Some ∅)) []);
      [by right|by right|]. unfold visits. simpl. by rewrite map_to_list_empty.
Defined.

Lemma GetVersionedRulesConfig_nil_iff_witness :
  GetVersionedRulesConfig Sample.empty_view ≠ None.
Proof.
  apply (proj2 (proj2 (GetVersionedRulesConfig_nil_iff Sample.empty_view))).
  reflexivity.
Defined.

Lemma sample_rulefmt_validates : @rulefmt_validates Sample.K.
Proof.
  intros content Hnil rg rl Hrg Hrl.
  unfold groups_of in Hrg. simpl in Hnil, Hrg.
  unfold Sample.rulefmt_Parse in Hnil, Hrg.
  destruct (Sample.strip_prefix "group " content) as [name|].
  - apply list_elem_of_singleton in Hrg as ->.
    apply list_elem_of_singleton in Hrl as ->. by eexists.
  - destruct (Sample.strip_prefix "badexpr " content) as [name|];
      discriminate Hnil.
Qed.

Lemma parseV2_group_failure_witness :
  (visits (Files Sample.broken_and_good) Sample.good_first ∧
   index (Files Sample.broken_and_good) "a.yml" = Some "broken" ∧
   @Parse Sample.K Sample.good_first Sample.broken_and_good =
     (None, Some (Errorf
        "error parsing a.yml: yaml: line 3: unterminated rule block"))) ∧
  (visits (Files Sample.broken_and_badexpr) Sample.badexpr_first ∧
   index (Files Sample.broken_and_badexpr) "b.yml" = Some "badexpr g" ∧
   @Parse Sample.K Sample.badexpr_first Sample.broken_and_badexpr =
     (None, Some (Errorf (error_parsing "b.yml"
        ("group g, rule r: could not parse expression: "
         +:+ "parse error at char 1: could not parse up +"))))).
Proof.
  split.
  - split; [exact sample_visits_good_first|]. split; [reflexivity|].
    refine (proj2 (proj2
      (@parseV2_group_failure Sample.K Sample.broken_and_good
         Sample.good_first "a.yml" "broken" _ _ sample_rulefmt_validates
         eq_refl sample_visits_good_first eq_refl eq_refl)) _).
    intros fn' content' Hin Hne. apply index_list_to_map in Hin.
    sample_elem Hin; [done|reflexivity].
  - assert (Hv : visits (Files Sample.broken_and_badexpr)
                   Sample.badexpr_first)
      by (by apply sample_visits_swap).
    split; [exact Hv|]. split; [reflexivity|].
    refine (proj1 (proj2
      (@parseV2_group_failure Sample.K Sample.broken_and_badexpr
         Sample.badexpr_first "b.yml" "badexpr g" _ _
         sample_rulefmt_validates eq_refl Hv eq_refl eq_refl))
      [] [("a.yml", "broken")] eq_refl _).
    intros f c0 Hin. by apply elem_of_nil in Hin.
Defined.

Lemma parseV2_group_keys_witness :
  @Parse Sample.K Sample.same_group_name_files Sample.same_group_name =
    (Some {[ "g;a.yml" := [RecordingRule "r" "up" []];
             "g;b.yml" := [RecordingRule "r" "up" []] ]}, None) ∧
  ∃ rls,
    @parseV2_rules Sample.K [Sample.one_rule "up"] [] = Done rls ∧
    ({[ "g;a.yml" := [RecordingRule "r" "up" []];
        "g;b.yml" := [RecordingRule "r" "up" []] ]}
       : gmap string (list (Rule (@PExpr Sample.K) (@Lbls Sample.K))))
      !! group_key "g" "b.yml" = Some rls.
Proof.
  assert (Hparse :
    @Parse Sample.K Sample.same_group_name_files Sample.same_group_name =
      (Some {[ "g;a.yml" := [RecordingRule "r" "up" []];
               "g;b.yml" := [RecordingRule "r" "up" []] ]}, None)).
  { vm_compute. reflexivity. }
  split; [exact Hparse|].
  refine (proj2 (proj2 (proj2
    (@parseV2_group_keys Sample.K Sample.same_group_name
       Sample.same_group_name_files _ eq_refl
       sample_visits_same_group_name Hparse)))
    _ "b.yml" "group g" (mkRuleGroup "g" [Sample.one_rule "up"]) _ _).
  - intros fn content Hin. apply index_list_to_map in Hin.
    sample_elem Hin; (split; [reflexivity|apply NoDup_singleton]).
  - reflexivity.
  - by left.
Defined.

(** C5, as stated, fails: the group [x;a] of the file [b] and the group
    [x] of the file [a;b] are two pairs that make the same key, and the
    result of the parse holds one entry for the two groups. *)
Lemma group_keys_collide :
  FormatVersion Sample.semicolons = RuleFormatV2 ∧
  visits (Files Sample.semicolons) Sample.semicolons_files ∧
  @Parse Sample.K Sample.semicolons_files Sample.semicolons =
    (Some {[ "x;a;b" := [RecordingRule "r" "up" []] ]}, None) ∧
  index (Files Sample.semicolons) "b" = Some "group x;a" ∧
  mkRuleGroup "x;a" [Sample.one_rule "up"]
    ∈ @groups_of Sample.K "group x;a" ∧
  index (Files Sample.semicolons) "a;b" = Some "group x" ∧
  mkRuleGroup "x" [Sample.one_rule "up"] ∈ @groups_of Sample.K "group x" ∧
  ("b", "x;a") ≠ ("a;b", "x") ∧
  group_key "x;a" "b" = group_key "x" "a;b".
Proof.
  split_and!.
  - reflexivity.
  - apply sample_visits_same. sample_NoDup.
  - vm_compute. reflexivity.
  - reflexivity.
  - by left.
  - reflexivity.
  - by left.
  - done.
  - reflexivity.
Qed.

Lemma parse_error_context_witness :
  ∃ stmt x e,
    stmt ∈ [AlertStmt "HighLoad" "up +" 300 [] []] ∧
    stmt_expr stmt = Some x ∧
    @promql_ParseExpr Sample.K (@LExpr_String Sample.K x) = Fail e ∧
    @parseV1 Sample.K ([] ++ ("a.rules", "badexpr HighLoad") :: []) =
      (None, Some (Foreign e)).
Proof.
  refine (proj2 (proj2 (@parse_error_context Sample.K [] []
                   "a.rules" "badexpr HighLoad") _) _ _ _ _).
  - intros f c Hin. by apply elem_of_nil in Hin.
  - reflexivity.
  - intros Hin. apply list_elem_of_singleton in Hin. discriminate.
  - eexists _, "up +", _. split_and!; [by left|reflexivity|reflexivity].
Defined.

(** C6, as stated, fails for the 1.x adapter: the statements of the file
    parse, the expression of its alert statement does not parse again,
    and the error returned is the one of the expression parser, not an
    error made of the file name. *)
Lemma parseV1_expression_error_without_file :
  FormatVersion Sample.legacy_badexpr = RuleFormatV1 ∧
  visits (Files Sample.legacy_badexpr) Sample.legacy_badexpr_files ∧
  @legacy_ParseStmts Sample.K "badexpr HighLoad" =
    Ok [AlertStmt "HighLoad" "up +" 300 [] []] ∧
  @promql_ParseExpr Sample.K "up +" =
    Fail "parse error at char 1: could not parse up +" ∧
  @Parse Sample.K Sample.legacy_badexpr_files Sample.legacy_badexpr =
    (None, Some (Foreign "parse error at char 1: could not parse up +")) ∧
  ∀ cause,
    @Parse Sample.K Sample.legacy_badexpr_files Sample.legacy_badexpr ≠
    (None, Some (Errorf (error_parsing "a.rules" cause))).
Proof.
  split_and!.
  - reflexivity.
  - apply sample_visits_same. sample_NoDup.
  - reflexivity.
  - reflexivity.
  - reflexivity.
  - done.
Qed.

(** ** The further properties on the sample collaborators *)

Lemma sample_visits_legacy_good :
  visits (Files Sample.legacy_good) Sample.legacy_good_files.
Proof. apply sample_visits_same. sample_NoDup. Qed.

Lemma sample_visits_legacy_good_swapped :
  visits (Files Sample.legacy_good) Sample.legacy_good_swapped.
Proof. by apply sample_visits_swap. Qed.

Lemma sample_alert_parses (name : string) :
  @file_parses_V1 Sample.K ("alert " +:+ name).
Proof.
  eexists. split; [reflexivity|]. intros stmt Hin.
  apply list_elem_of_singleton in Hin as ->. by eexists _, _.
Qed.

Lemma Equal_any_order_witness :
  Equal_visit Sample.same_group_name_files
    Sample.same_group_name Sample.same_group_name =
  Equal_visit Sample.same_group_name_swapped
    Sample.same_group_name Sample.same_group_name.
Proof.
  apply Equal_any_order.
  - exact sample_visits_same_group_name.
  - by apply sample_visits_swap.
Defined.

Lemma Equal_equivalence_witness :
  Equal (mkRulesConfig RuleFormatV2 None) Sample.same_group_name = false ∧
  Equal (mkRulesConfig RuleFormatV1 None)
        (mkRulesConfig RuleFormatV1 None) = true.
Proof.
  split.
  - rewrite (proj1 (proj2 Equal_equivalence)). reflexivity.
  - apply (proj2 (proj2 Equal_equivalence) _
             (mkRulesConfig RuleFormatV1 (Some ∅))); reflexivity.
Defined.

Lemma Equal_Parse_returns_witness :
  @Parse_returns Sample.K (mkRulesConfig RuleFormatV2 None) (Some ∅, None) ↔
  @Parse_returns Sample.K (mkRulesConfig RuleFormatV2 (Some ∅)) (Some ∅, None).
Proof. apply (@Equal_Parse_returns Sample.K). reflexivity. Defined.

Lemma MarshalJSON_IsValid_witness :
  (∃ data, @MarshalJSON Sample.K RuleFormatV2 = (Some data, None)) ∧
  (∃ e, @MarshalJSON Sample.K 7 = (None, Some e)).
Proof.
  split.
  - apply (proj1 (@MarshalJSON_IsValid Sample.K RuleFormatV2)). reflexivity.
  - apply (proj2 (@MarshalJSON_IsValid Sample.K 7)). reflexivity.
Defined.

Lemma UnmarshalJSON_valid_or_unchanged_witness :
  IsValid (@UnmarshalJSON Sample.K 7 (Sample.quoted "2")).1 = true ∧
  (@UnmarshalJSON Sample.K 7 (Sample.quoted "3")).1 = 7.
Proof.
  split.
  - apply (proj1 (@UnmarshalJSON_valid_or_unchanged Sample.K 7
                    (Sample.quoted "2"))). reflexivity.
  - apply (proj2 (@UnmarshalJSON_valid_or_unchanged Sample.K 7
                    (Sample.quoted "3"))). discriminate.
Defined.

Lemma MarshalJSON_then_UnmarshalJSON_witness :
  ∃ data, @MarshalJSON Sample.K RuleFormatV2 = (Some data, None) ∧
          @UnmarshalJSON Sample.K 7 data = (RuleFormatV2, None).
Proof.
  apply (@MarshalJSON_then_UnmarshalJSON Sample.K RuleFormatV2 7);
    reflexivity.
Defined.

Lemma Config_UnmarshalJSON_valid_witness :
  @Config_UnmarshalJSON Sample.K Sample.old_config Sample.legacy_blob =
    (mkConfig (mkRulesConfig RuleFormatV1 (Some ∅)) "route", None) ∧
  ∀ order,
    @Parse Sample.K order (mkRulesConfig RuleFormatV1 (Some ∅)) =
      @parseV1 Sample.K order ∨
    @Parse Sample.K order (mkRulesConfig RuleFormatV1 (Some ∅)) =
      @parseV2 Sample.K order.
Proof.
  assert (H : @Config_UnmarshalJSON Sample.K Sample.old_config
                Sample.legacy_blob =
              (mkConfig (mkRulesConfig RuleFormatV1 (Some ∅)) "route", None))
    by (vm_compute; reflexivity).
  split; [exact H|].
  exact (proj2 (@Config_UnmarshalJSON_valid Sample.K _ _ _ H)).
Defined.

Lemma Config_UnmarshalJSON_bad_version_witness :
  ∃ e, @Config_UnmarshalJSON Sample.K_bad Sample.old_config
         (Sample.json_Marshal_object Sample.bad_version_members) =
       (Sample.old_config, Some e).
Proof.
  apply (@Config_UnmarshalJSON_bad_version Sample.K_bad _ _
           Sample.bad_version_members "rule_format_version"
           (Sample.quoted "3")).
  - reflexivity.
  - right. by left.
  - reflexivity.
  - reflexivity.
  - discriminate.
  - discriminate.
Defined.

Lemma Config_UnmarshalJSON_no_rules_files_witness :
  GetVersionedRulesConfig
    (mkView 3 (mkConfig (mkRulesConfig RuleFormatV2 None) EmptyString) 0) =
  None.
Proof.
  refine (proj2 (@Config_UnmarshalJSON_no_rules_files Sample.K
                   Sample.old_config _ Sample.tagged_blob
                   [("rule_format_version", Sample.quoted "2")] _ _ _) 3 0).
  - reflexivity.
  - intros key raw Hin. sample_elem Hin. reflexivity.
  - vm_compute. reflexivity.
Defined.

Lemma Config_MarshalJSON_IsValid_witness :
  ∃ data,
    @Config_MarshalJSON Sample.K Sample.json_Marshal_map
      Sample.json_Marshal_object Sample.json_MarshalerError
      Sample.wire_config = (Some data, None).
Proof.
  apply (proj1 (@Config_MarshalJSON_IsValid Sample.K Sample.json_Marshal_map
                  Sample.json_Marshal_object Sample.json_MarshalerError
                  Sample.wire_config)).
  reflexivity.
Defined.

Lemma Config_MarshalJSON_then_UnmarshalJSON_witness :
  ∃ data,
    @Config_MarshalJSON Sample.K_wire Sample.json_Marshal_map
      Sample.json_Marshal_object Sample.json_MarshalerError
      Sample.wire_config = (Some data, None) ∧
    @Config_UnmarshalJSON Sample.K_wire Sample.old_config data =
      (Sample.wire_config, None).
Proof.
  apply (@Config_MarshalJSON_then_UnmarshalJSON Sample.K_wire).
  - reflexivity.
  - intros tag key Htag Hkey. reflexivity.
  - intros version Hm. injection Hm as <-. vm_compute. reflexivity.
  - vm_compute. reflexivity.
  - reflexivity.
  - reflexivity.
  - reflexivity.
Defined.

Lemma Parse_V2_succeeds_iff_witness :
  ∃ groups,
    @Parse Sample.K Sample.same_group_name_files Sample.same_group_name =
      (Some groups, None).
Proof.
  apply (@Parse_V2_succeeds_iff Sample.K Sample.same_group_name
           Sample.same_group_name_files eq_refl
           sample_visits_same_group_name).
  intros fn content Hin. apply index_list_to_map in Hin.
  sample_elem Hin; apply (sample_group_parses "g").
Defined.

Lemma Parse_V1_succeeds_iff_witness :
  ∃ result,
    @Parse Sample.K Sample.legacy_good_files Sample.legacy_good =
      (Some result, None).
Proof.
  apply (@Parse_V1_succeeds_iff Sample.K Sample.legacy_good
           Sample.legacy_good_files eq_refl sample_visits_legacy_good).
  intros fn content Hin. apply index_list_to_map in Hin.
  sample_elem Hin;
    [apply (sample_alert_parses "HighLoad")|apply (sample_alert_parses "Down")].
Defined.

Lemma sample_Parse_legacy_good :
  @Parse Sample.K Sample.legacy_good_files Sample.legacy_good =
    (Some {[ "a.rules" := [AlertingRule "HighLoad" "up" 300 [] [] true];
             "b.rules" := [AlertingRule "Down" "up" 300 [] [] true] ]},
     None).
Proof. vm_compute. reflexivity. Qed.

Lemma Parse_V1_result_witness :
  size ({[ "a.rules" := [AlertingRule "HighLoad" "up" 300 [] [] true];
           "b.rules" := [AlertingRule "Down" "up" 300 [] [] true] ]}
          : gmap string (list (Rule (@PExpr Sample.K) (@Lbls Sample.K)))) =
  len (Files Sample.legacy_good).
Proof.
  exact (proj2 (proj2 (@Parse_V1_result Sample.K Sample.legacy_good
                         Sample.legacy_good_files _ eq_refl
                         sample_visits_legacy_good sample_Parse_legacy_good))).
Defined.

Lemma Parse_V1_any_order_witness :
  @Parse Sample.K Sample.legacy_good_swapped Sample.legacy_good =
    (Some {[ "a.rules" := [AlertingRule "HighLoad" "up" 300 [] [] true];
             "b.rules" := [AlertingRule "Down" "up" 300 [] [] true] ]},
     None).
Proof.
  exact (@Parse_V1_any_order Sample.K Sample.legacy_good
           Sample.legacy_good_files Sample.legacy_good_swapped _ eq_refl
           sample_visits_legacy_good sample_visits_legacy_good_swapped
           sample_Parse_legacy_good).
Defined.

Lemma parseV2_rules_in_order_witness :
  length [RecordingRule (PExpr:=@PExpr Sample.K) (Lbls:=@Lbls Sample.K)
            "r" "up" []] =
  length [Sample.one_rule "up"].
Proof.
  apply (@parseV2_rules_in_order Sample.K [Sample.one_rule "up"]).
  reflexivity.
Defined.

Lemma parseV1_stmts_in_order_witness :
  length [AlertingRule (PExpr:=@PExpr Sample.K) (Lbls:=@Lbls Sample.K)
            "HighLoad" "up" 300 [] [] true] =
  length [AlertStmt (LExpr:=@LExpr Sample.K) (Lbls:=@Lbls Sample.K)
            "HighLoad" "up" 300 [] []].
Proof.
  apply (@parseV1_stmts_in_order Sample.K
           [AlertStmt "HighLoad" "up" 300 [] []]).
  reflexivity.
Defined.

Lemma parseV1_unknown_statement_witness :
  @parseV1 Sample.K ([] ++ ("a.rules", "other") :: []) =
    (None, Some (Errorf "ruler.GetRules: unknown statement type")).
Proof.
  apply (@parseV1_unknown_statement Sample.K [] [] "a.rules" "other" [] []).
  - intros f c Hin. by apply elem_of_nil in Hin.
  - reflexivity.
  - intros stmt Hin. by apply elem_of_nil in Hin.
Defined.

Lemma Parse_error_kinds_witness :
  @Parse Sample.K Sample.good_first Sample.broken_and_good =
    (None, Some (Errorf
       "error parsing a.yml: yaml: line 3: unterminated rule block")) ∧
  ∃ fn content e es,
    index (Files Sample.broken_and_good) fn = Some content ∧
    (@rulefmt_Parse Sample.K content).2 = e :: es ∧
    Errorf (E:=@E Sample.K)
      "error parsing a.yml: yaml: line 3: unterminated rule block" =
    Errorf ("error parsing " +:+ fn +:+ ": " +:+ @Error Sample.K e).
Proof.
  assert (H : @Parse Sample.K Sample.good_first Sample.broken_and_good =
                (None, Some (Errorf
                   "error parsing a.yml: yaml: line 3: unterminated rule block")))
    by reflexivity.
  split; [exact H|].
  destruct (proj2 (@Parse_error_kinds Sample.K Sample.broken_and_good
                     Sample.good_first _ _ sample_visits_good_first H))
    as [(_ & Hno & _)|[(_ & Hex)|[(_ & Hex)|[(Hno & _)|[(Hno & _)|(Hno & _)]]]]];
    try discriminate Hno; try (exfalso; by apply Hno).
  - exact Hex.
  - exfalso. destruct Hex as (? & ? & ? & ? & ? & _ & _ & _ & _ & Habs).
    discriminate Habs.
Defined.

Lemma GetVersionedRulesConfig_IsDeleted_witness :
  IsDeleted (mkVersionedRulesConfig 3
               (mkRulesConfig RuleFormatV1 (Some ∅)) 0) = true ↔
  View_DeletedAt Sample.empty_view ≠ 0.
Proof.
  apply (GetVersionedRulesConfig_IsDeleted Sample.empty_view). reflexivity.
Defined.

Lemma Config_UnmarshalJSON_missing_fields_witness :
  @Config_UnmarshalJSON Sample.K Sample.wire_config Sample.tagged_blob =
    (mkConfig (mkRulesConfig RuleFormatV2 None) EmptyString, None) ∧
  Files (mkRulesConfig RuleFormatV2 None) = None ∧
  AlertmanagerConfig
    (mkConfig (mkRulesConfig RuleFormatV2 None) EmptyString) = EmptyString.
Proof.
  assert (H : @Config_UnmarshalJSON Sample.K Sample.wire_config
                Sample.tagged_blob =
              (mkConfig (mkRulesConfig RuleFormatV2 None) EmptyString, None))
    by (vm_compute; reflexivity).
  split; [exact H|].
  destruct (@Config_UnmarshalJSON_missing_fields Sample.K Sample.wire_config
              _ Sample.tagged_blob
              [("rule_format_version", Sample.quoted "2")] eq_refl H)
    as (Hfiles & _ & Ham).
  split.
  - apply Hfiles. intros key raw Hin. sample_elem Hin. reflexivity.
  - apply Ham. intros key raw Hin. sample_elem Hin. reflexivity.
Defined.

Lemma sample_Parse_same_group_name :
  @Parse Sample.K Sample.same_group_name_files Sample.same_group_name =
    (Some {[ "g;a.yml" := [RecordingRule "r" "up" []];
             "g;b.yml" := [RecordingRule "r" "up" []] ]}, None).
Proof. vm_compute. reflexivity. Qed.

Lemma Parse_V2_any_order_witness :
  @Parse Sample.K Sample.same_group_name_swapped Sample.same_group_name =
    (Some {[ "g;a.yml" := [RecordingRule "r" "up" []];
             "g;b.yml" := [RecordingRule "r" "up" []] ]}, None).
Proof.
  refine (@Parse_V2_any_order Sample.K Sample.same_group_name
            Sample.same_group_name_files Sample.same_group_name_swapped _
            eq_refl sample_visits_same_group_name _ _
            sample_Parse_same_group_name).
  - by apply sample_visits_swap.
  - intros fn1 content1 rg1 fn2 content2 rg2 Hin1 Hrg1 Hin2 Hrg2 _.
    apply index_list_to_map in Hin1. apply index_list_to_map in Hin2.
    sample_elem Hin1; sample_elem Hin2;
      apply list_elem_of_singleton in Hrg1 as ->;
      apply list_elem_of_singleton in Hrg2 as ->; reflexivity.
Defined.
